(** * Edit distance calculator: the weighted dynamic programme, its
    traceback and the replay of the prescription.

    Shallow embedding of [src/edit_distance.py].  Python values are modelled
    as follows:
    - a sequence ([str], or any indexable sequence) is a [list E] over an
      element type with decidable equality (Python's [==] on elements);
    - an [int] is a [Z] (Python integers are unbounded);
    - an action tag is the one-character [string] the source uses;
    - the dict [COST_MAP] is a [gmap string Z];
    - a raised exception is the [Raise] outcome of the [res] monad;
    - the list object [result] that [get_redaction] mutates and yields lives
      in a store ([gmap loc (list E)]), so that aliasing is visible. *)

From Stdlib Require Import ZArith Lia Ascii.
From stdpp Require Import base list strings gmap.

Local Open Scope Z_scope.

(** ** Exceptions and outcomes *)

Inductive exn : Type :=
  | IndexError
  | KeyError (key : string)
  | RuntimeError (msg : string) (arg : string).

(** [OutOfFuel] is not a Python outcome: it marks a [while] loop cut short
    by the fuel of its model, and is shown never to occur. *)
Inductive res (A : Type) : Type :=
  | Ok (a : A)
  | Raise (e : exn)
  | OutOfFuel.
Arguments Ok {A} a.
Arguments Raise {A} e.
Arguments OutOfFuel {A}.

#[global] Instance res_ret : MRet res := λ A a, Ok a.
#[global] Instance res_bind : MBind res := λ A B f m,
  match m with
  | Ok a => f a
  | Raise e => Raise e
  | OutOfFuel => OutOfFuel
  end.
#[global] Instance res_fmap : FMap res := λ A B f m,
  match m with
  | Ok a => Ok (f a)
  | Raise e => Raise e
  | OutOfFuel => OutOfFuel
  end.

(** ** Python list primitives *)

(** [l[i]] for an index that is a loop counter (never negative). *)
Definition getitem {A} (l : list A) (i : nat) : res A :=
  match l !! i with
  | Some x => Ok x
  | None => Raise IndexError
  end.

(** [l[i] = x] for a non-negative index: raises out of range. *)
Definition setitem {A} (l : list A) (i : nat) (x : A) : res (list A) :=
  if decide (i < length l)%nat then Ok (<[i:=x]> l) else Raise IndexError.

(** [l[i]] for an arbitrary integer index: a negative index counts from the
    end of the list, and anything outside [-len, len) raises. *)
Definition py_index {A} (l : list A) (i : Z) : res A :=
  let n := Z.of_nat (length l) in
  let k := if decide (i < 0) then i + n else i in
  if decide (0 ≤ k < n) then getitem l (Z.to_nat k) else Raise IndexError.

(** [m[i][j]] *)
Definition getitem2 {A} (m : list (list A)) (i j : nat) : res A :=
  row ← getitem m i; getitem row j.

(** [m[i][j] = x].  The rows of a matrix are distinct list objects (see
    [get_matrix_tables]), so updating one row leaves the others alone. *)
Definition setitem2 {A} (m : list (list A)) (i j : nat) (x : A)
    : res (list (list A)) :=
  row ← getitem m i; row' ← setitem row j x; setitem m i row'.

(** [l.pop(i)] for a non-negative index; the popped element is not used. *)
Definition pop {A} (l : list A) (i : nat) : res (list A) :=
  if decide (i < length l)%nat then Ok (delete i l) else Raise IndexError.

(** [l.insert(i, x)] for a non-negative index: never raises, and appends
    when [i] is past the end. *)
Definition list_insert_at {A} (l : list A) (i : nat) (x : A) : list A :=
  take i l ++ x :: drop i l.

(** [range(n)] and [enumerate(xs, start)] *)
Definition range (n : nat) : list nat := seq 0 n.
Definition enumerate {A} (start : nat) (xs : list A) : list (nat * A) :=
  imap (λ k x, ((start + k)%nat, x)) xs.

(** [for x in xs: body], threading the mutated state. *)
Fixpoint for_ {S X} (xs : list X) (body : X → S → res S) (s : S) : res S :=
  match xs with
  | [] => Ok s
  | x :: xs' => s' ← body x s; for_ xs' body s'
  end.

(** ** Module constants *)

Definition REPLACE : string := "R".
Definition INSERT : string := "I".
Definition DELETE : string := "D".
Definition MATCH : string := "M".

Definition COST_MAP : gmap string Z :=
  <[REPLACE := 4]> (<[INSERT := 3]> (<[DELETE := 2]> (<[MATCH := 0]> ∅))).

(** [COST_MAP[action]] *)
Definition cost_of (action : string) : res Z :=
  match COST_MAP !! action with
  | Some c => Ok c
  | None => Raise (KeyError action)
  end.

(** [min(a, b, c)] *)
Definition min3 (a b c : Z) : Z := Z.min (Z.min a b) c.

Section edit_distance.
Context {E : Type} `{EqDecision E}.

(** ** [get_matrix] *)

(** One pass of the body of the nested loop at cell [(i, j)]. *)
Definition fill_cell (i : nat) (char_origin : E) (j : nat) (char_final : E)
    (s : list (list Z) * list (list string))
    : res (list (list Z) * list (list string)) :=
  let '(matrix, action_matrix) := s in
  let replace_action :=
    if decide (char_origin = char_final) then MATCH else REPLACE in
  left ← getitem2 matrix i (j - 1);
  c_insert ← cost_of INSERT;
  let insert := left + c_insert in
  up ← getitem2 matrix (i - 1) j;
  c_delete ← cost_of DELETE;
  let delete := up + c_delete in
  diag ← getitem2 matrix (i - 1) (j - 1);
  c_replace ← cost_of replace_action;
  let replace := diag + c_replace in
  let optimal := min3 insert delete replace in
  matrix ← setitem2 matrix i j optimal;
  action_matrix ←
    (if decide (optimal = insert) then setitem2 action_matrix i j INSERT
     else if decide (optimal = delete) then setitem2 action_matrix i j DELETE
     else if decide (optimal = replace)
          then setitem2 action_matrix i j replace_action
     else Ok action_matrix);
  Ok (matrix, action_matrix).

(** The whole of [get_matrix], returning the cost matrix next to the action
    matrix (the source returns the action matrix only).
    [list(map(list, [[0] * size_final] * size_origin))] copies every row, so
    the rows are independent lists. *)
Definition get_matrix_tables (original final : list E)
    : res (list (list Z) * list (list string)) :=
  let size_origin := (length original + 1)%nat in
  let size_final := (length final + 1)%nat in
  let matrix := replicate size_origin (replicate size_final 0) in
  let action_matrix := replicate size_origin (replicate size_final "") in
  s ← for_ (range size_origin) (λ i '(matrix, action_matrix),
         matrix ← setitem2 matrix i 0 (Z.of_nat i);
         action_matrix ← setitem2 action_matrix i 0 DELETE;
         Ok (matrix, action_matrix)) (matrix, action_matrix);
  s ← for_ (range size_final) (λ j '(matrix, action_matrix),
         matrix ← setitem2 matrix 0 j (Z.of_nat j);
         action_matrix ← setitem2 action_matrix 0 j INSERT;
         Ok (matrix, action_matrix)) s;
  for_ (enumerate 1 original) (λ '(i, char_origin) s,
    for_ (enumerate 1 final) (λ '(j, char_final) s,
      fill_cell i char_origin j char_final s) s) s.

Definition get_matrix (original final : list E) : res (list (list string)) :=
  snd <$> get_matrix_tables original final.

End edit_distance.

(** ** [get_prescription] *)

(** The [while i or j] loop.  [i] and [j] are integers: the source
    decrements them under the control of the matrix, and a negative index
    would read the matrix from its end. *)
Fixpoint prescription_loop (fuel : nat) (action_matrix : list (list string))
    (i j : Z) (prescr : list string) : res (list string) :=
  if decide (i = 0 ∧ j = 0) then Ok prescr
  else match fuel with
  | O => OutOfFuel
  | S fuel' =>
    action ← (row ← py_index action_matrix i; py_index row j);
    let prescr := prescr ++ [action] in
    if decide (action = DELETE) then
      prescription_loop fuel' action_matrix (i - 1) j prescr
    else if decide (action = INSERT) then
      prescription_loop fuel' action_matrix i (j - 1) prescr
    else if decide (action = REPLACE ∨ action = MATCH) then
      prescription_loop fuel' action_matrix (i - 1) (j - 1) prescr
    else Raise (RuntimeError "Unknown action: %s" action)
  end.

(** Every iteration that does not raise lowers [i + j], and an index below
    minus the length raises: this many iterations always suffice
    ([prescription_loop_terminates]). *)
Definition prescription_fuel (action_matrix : list (list string)) : nat :=
  (2 * (length action_matrix + length (concat action_matrix)) + 2)%nat.

Definition get_prescription (action_matrix : list (list string))
    : res (list string) :=
  let i := Z.of_nat (length action_matrix) - 1 in
  row0 ← py_index action_matrix 0;
  let j := Z.of_nat (length row0) - 1 in
  prescr ← prescription_loop (prescription_fuel action_matrix)
             action_matrix i j [];
  Ok (reverse prescr).

(** ** [get_redaction] *)

(** Python objects live in a store; a reference to a list is a location. *)
Definition loc : Type := nat.

(** The tuple [(action, i, total, result)] that the generator yields: its
    last component is the reference to the list [result], not a copy. *)
Record trace_step : Type := TraceStep {
  ts_action : string;
  ts_i : nat;
  ts_total : Z;
  ts_result : loc;
}.

Section redaction.
Context {E : Type}.
Local Abbreviation heap := (gmap loc (list E)).

(** A new list object: [list(original)]. *)
Definition alloc (h : heap) (l : list E) : loc * heap :=
  let r := fresh (dom h) in (r, <[r := l]> h).

(** The body of the [for] loop up to the [yield]: the new running total,
    the new cursor and the store after the mutation of [result]. *)
Definition redaction_step (final : list E) (result : loc) (action : string)
    (total : Z) (i : nat) (h : heap) : res (Z * nat * heap) :=
  '(i, h) ←
    (if decide (action = DELETE) then
       l ← pop (h !!! result) i;
       Ok (i, <[result := l]> h)
     else if decide (action = INSERT) then
       x ← getitem final i;
       Ok ((i + 1)%nat, <[result := list_insert_at (h !!! result) i x]> h)
     else if decide (action = MATCH) then
       Ok ((i + 1)%nat, h)
     else if decide (action = REPLACE) then
       x ← getitem final i;
       l ← setitem (h !!! result) i x;
       Ok ((i + 1)%nat, <[result := l]> h)
     else Raise (RuntimeError "Unknown action: %s" action));
  c ← cost_of action;
  Ok (total + c, i, h).

(** The run of the generator: the tuples it yields, each with the store as
    it is at that [yield] (what a consumer that looks at once sees), and how
    the run ends: exhausted, with the final store, or by an exception. *)
Fixpoint redaction_loop (prescription : list string) (final : list E)
    (result : loc) (total : Z) (i : nat) (h : heap)
    : list (trace_step * heap) * res heap :=
  match prescription with
  | [] => ([], Ok h)
  | action :: prescription' =>
    match redaction_step final result action total i h with
    | Ok (total', i', h') =>
      let '(ys, r) := redaction_loop prescription' final result total' i' h' in
      ((TraceStep action i' total' result, h') :: ys, r)
    | Raise e => ([], Raise e)
    | OutOfFuel => ([], OutOfFuel)
    end
  end.

Definition get_redaction (prescription : list string) (original final : list E)
    (h0 : heap) : list (trace_step * heap) * res heap :=
  let '(result, h) := alloc h0 original in
  redaction_loop prescription final result 0 0%nat h.

(** What a consumer reads in the last component of a step at the moment the
    step is yielded (as [show_table] does, with [result[:]]). *)
Definition snapshot_at_yield (y : trace_step * heap) : list E :=
  y.2 !!! ts_result y.1.

(** What a consumer that kept the steps reads there once the store is [h]. *)
Definition snapshot_retained (h : heap) (y : trace_step * heap) : list E :=
  h !!! ts_result y.1.

End redaction.

(** ** [show_table] and [main] *)











(** * The vocabulary of the properties *)

(** ** Cells of a matrix *)

(** [m[i][j]] as an option. *)
Definition cell {A} (m : list (list A)) (i j : nat) : option A :=
  m !! i ≫= (.!! j).

Definition shape {A} (r c : nat) (m : list (list A)) : Prop :=
  length m = r ∧ ∀ i row, m !! i = Some row → length row = c.

(** ** Operations of a prescription *)

(** The number of operations that move the cursor (all but Delete), the
    number that consume an element of the original (all but Insert), and
    the sum of the costs. *)
Definition cursor_of (ops : list string) : nat :=
  length (filter (λ a, a ≠ DELETE) ops).
Definition consumed_of (ops : list string) : nat :=
  length (filter (λ a, a ≠ INSERT) ops).
Definition total_cost (ops : list string) : Z :=
  foldr (λ a t, default 0 (COST_MAP !! a) + t) 0 ops.

Section vocabulary.
Context {E : Type} `{EqDecision E}.
Implicit Types (A B : list E) (mat : list (list Z)) (am : list (list string)).

(** ** The tables of [get_matrix] *)

(** The interior cell for the elements [A[i]] and [B[j]] (0-based), that is
    cell [(i + 1, j + 1)], holds the minimum of its three candidates, and its
    action is chosen by the source's chain of tests. *)
Definition interior_ok A B mat am (i j : nat) : Prop :=
  ∃ a b left up diag,
    A !! i = Some a ∧ B !! j = Some b ∧
    cell mat (S i) j = Some left ∧ cell mat i (S j) = Some up ∧
    cell mat i j = Some diag ∧
    let insert := left + 3 in
    let delete := up + 2 in
    let replace := diag + (if decide (a = b) then 0 else 4) in
    let optimal := min3 insert delete replace in
    cell mat (S i) (S j) = Some optimal ∧
    cell am (S i) (S j) =
      Some (if decide (optimal = insert) then INSERT
            else if decide (optimal = delete) then DELETE
            else if decide (a = b) then MATCH else REPLACE).

(** The tables when the nested loop has completed [rows] rows and [cols]
    cells of the next one. *)
Record filled A B (rows cols : nat) mat am : Prop := Filled {
  filled_shape_mat : shape (S (length A)) (S (length B)) mat;
  filled_shape_am : shape (S (length A)) (S (length B)) am;
  filled_row0 : ∀ j, (j ≤ length B)%nat →
    cell mat 0 j = Some (Z.of_nat j) ∧ cell am 0 j = Some INSERT;
  filled_col0 : ∀ i, (1 ≤ i ≤ length A)%nat →
    cell mat i 0 = Some (Z.of_nat i) ∧ cell am i 0 = Some DELETE;
  filled_interior : ∀ i j,
    (i < rows ∧ j < length B)%nat ∨ (i = rows ∧ j < cols)%nat →
    interior_ok A B mat am i j;
}.

(** ** Alignments *)

(** [alignment A B i j p]: the operations [p], in chronological order, edit
    what is left of [A] from position [i] into what is left of [B] from
    position [j]: a walk in the grid from [(i, j)] to the last cell in which
    Delete consumes an element of [A], Insert produces one of [B], Match
    and Replace do both, and Match stands on equal elements only. *)
Inductive alignment A B : nat → nat → list string → Prop :=
  | alignment_end : alignment A B (length A) (length B) []
  | alignment_delete i j p :
      (i < length A)%nat → alignment A B (S i) j p →
      alignment A B i j (DELETE :: p)
  | alignment_insert i j p :
      (j < length B)%nat → alignment A B i (S j) p →
      alignment A B i j (INSERT :: p)
  | alignment_match i j a p :
      A !! i = Some a → B !! j = Some a → alignment A B (S i) (S j) p →
      alignment A B i j (MATCH :: p)
  | alignment_replace i j p :
      (i < length A)%nat → (j < length B)%nat → alignment A B (S i) (S j) p →
      alignment A B i j (REPLACE :: p).

(** ** Steps of the replay *)

(** What the [k]-th yielded step shows, for a replay of [p] that starts with
    the cursor at [j], the running total [total] and the working sequence
    [take j B ++ drop i A] at location [r]. *)
Definition step_at A B (r : loc) (i j : nat) (total : Z) (p : list string)
    (k : nat) (y : trace_step * gmap loc (list E)) : Prop :=
  let ops := take (S k) p in
  p !! k = Some (ts_action y.1) ∧
  ts_i y.1 = (j + cursor_of ops)%nat ∧
  ts_total y.1 = total + total_cost ops ∧
  ts_result y.1 = r ∧
  snapshot_at_yield y =
    take (j + cursor_of ops) B ++ drop (i + consumed_of ops) A.

(** ** The weighted recurrence of the specification *)

(** The cost of the diagonal move on the elements at two positions. *)
Definition diagonal_cost (a b : option E) : Z :=
  match a, b with
  | Some x, Some y => if decide (x = y) then 0 else 4
  | _, _ => 4
  end.

(** The cost matrix as the specification describes it: the borders are
    [j * insert_cost] and [i * delete_cost], and an interior cell is the
    minimum of its three candidates. *)
Fixpoint spec_matrix (A B : list E) (i : nat) : nat → Z :=
  match i with
  | O => λ j, Z.of_nat j * 3
  | S i' =>
    fix row (j : nat) : Z :=
      match j with
      | O => Z.of_nat (S i') * 2
      | S j' =>
        min3 (row j' + 3) (spec_matrix A B i' (S j') + 2)
             (spec_matrix A B i' j' + diagonal_cost (A !! i') (B !! j'))
      end
  end.

End vocabulary.

(** ** The replay seen on lists, and the table of [show_table] *)

(** One of the four tags. *)
Definition known_tag (a : string) : Prop :=
  a = REPLACE ∨ a = INSERT ∨ a = DELETE ∨ a = MATCH.

(** The number of occurrences of a tag. *)
Definition count_of (tag : string) (ops : list string) : nat :=
  length (filter (λ a, a = tag) ops).

(** What one operation does to the cursor and to the working sequence. *)
Definition work_step {E} (final : list E) (action : string) (i : nat)
    (l : list E) : res (nat * list E) :=
  if decide (action = DELETE) then l' ← pop l i; Ok (i, l')
  else if decide (action = INSERT) then
    x ← getitem final i; Ok ((i + 1)%nat, list_insert_at l i x)
  else if decide (action = MATCH) then Ok ((i + 1)%nat, l)
  else if decide (action = REPLACE) then
    x ← getitem final i; l' ← setitem l i x; Ok ((i + 1)%nat, l')
  else Raise (RuntimeError "Unknown action: %s" action).

(** When the operation [action] can be applied with the cursor at [i] to a
    working sequence of length [len], the final sequence having length
    [len_final]. *)
Definition applicable (action : string) (i len len_final : nat) : Prop :=
  action = MATCH ∨ (action = DELETE ∧ (i < len)%nat) ∨
  (action = INSERT ∧ (i < len_final)%nat) ∨
  (action = REPLACE ∧ (i < len_final)%nat ∧ (i < len)%nat).




(** An action matrix of [r] rows and [c] columns whose first row is Insert
    and first column Delete beyond the origin, with one of the four tags in
    every other cell. *)
Definition well_bordered (r c : nat) (am : list (list string)) : Prop :=
  shape r c am ∧ (1 ≤ r)%nat ∧ (1 ≤ c)%nat ∧
  (∀ j, (1 ≤ j < c)%nat → cell am 0 j = Some INSERT) ∧
  (∀ i, (1 ≤ i < r)%nat → cell am i 0 = Some DELETE) ∧
  (∀ i j a, (1 ≤ i)%nat → (1 ≤ j)%nat → cell am i j = Some a → known_tag a).

(** * Properties *)

(** ** The outcome monad *)

Lemma bind_Ok {A B} (a : A) (f : A → res B) : (Ok a ≫= f) = f a.
Proof. reflexivity. Qed.

Lemma bind_Ok_inv {A B} (m : res A) (f : A → res B) (b : B) :
  m ≫= f = Ok b → ∃ a, m = Ok a ∧ f a = Ok b.
Proof. destruct m as [a| |]; simpl; intros; [eauto | done | done]. Qed.


Lemma cell_is_Some {A} r c (m : list (list A)) i j :
  shape r c m → (i < r)%nat → (j < c)%nat → is_Some (cell m i j).
Proof.
  intros [Hr Hc] Hi Hj. unfold cell.
  destruct (lookup_lt_is_Some_2 m i) as [row Hrow]; [lia|].
  rewrite Hrow. simpl. apply lookup_lt_is_Some_2.
  rewrite (Hc _ _ Hrow). done.
Qed.

Lemma cell_lt {A} r c (m : list (list A)) i j x :
  shape r c m → cell m i j = Some x → (i < r)%nat ∧ (j < c)%nat.
Proof.
  intros [Hr Hc]. unfold cell.
  destruct (m !! i) as [row|] eqn:Hrow; simpl; [|done].
  intros Hx. pose proof (Hc _ _ Hrow) as Hlen.
  apply lookup_lt_Some in Hrow. apply lookup_lt_Some in Hx. lia.
Qed.

Lemma getitem_Some {A} (l : list A) i x : l !! i = Some x → getitem l i = Ok x.
Proof. unfold getitem. by intros ->. Qed.

Lemma getitem2_cell {A} (m : list (list A)) i j x :
  cell m i j = Some x → getitem2 m i j = Ok x.
Proof.
  unfold cell, getitem2, getitem.
  destruct (m !! i) as [row|]; simpl; [|done]. by intros ->.
Qed.

Lemma shape_replicate {A} r c (x : A) : shape r c (replicate r (replicate c x)).
Proof.
  split; [apply length_replicate|].
  intros i row [-> _]%lookup_replicate. apply length_replicate.
Qed.

Lemma setitem2_spec {A} r c (m : list (list A)) i j x :
  shape r c m → (i < r)%nat → (j < c)%nat →
  ∃ m', setitem2 m i j x = Ok m' ∧ shape r c m' ∧ cell m' i j = Some x ∧
        ∀ p q, p ≠ i ∨ q ≠ j → cell m' p q = cell m p q.
Proof.
  intros [Hr Hc] Hi Hj.
  destruct (lookup_lt_is_Some_2 m i) as [row Hrow]; [lia|].
  pose proof (Hc _ _ Hrow) as Hlen.
  exists (<[i := <[j := x]> row]> m).
  unfold setitem2, getitem, setitem. rewrite Hrow. simpl.
  rewrite decide_True by lia. simpl. rewrite decide_True by lia.
  split; [done|]. split; [|split].
  - split; [by rewrite length_insert|].
    intros p row'. destruct (decide (p = i)) as [->|Hne].
    + rewrite list_lookup_insert_eq by lia. intros [= <-].
      by rewrite length_insert.
    + rewrite list_lookup_insert_ne by done. apply Hc.
  - unfold cell. rewrite list_lookup_insert_eq by lia. simpl.
    apply list_lookup_insert_eq. lia.
  - intros p q Hpq. unfold cell. destruct (decide (p = i)) as [->|Hne].
    + rewrite list_lookup_insert_eq by lia. rewrite Hrow. simpl.
      apply list_lookup_insert_ne. destruct Hpq; congruence.
    + by rewrite list_lookup_insert_ne.
Qed.

(** ** The loop-invariant rule for [for_] *)

Lemma for_invariant {St X} (P : nat → St → Prop) (xs : list X)
    (body : X → St → res St) (s0 : St) :
  P 0%nat s0 →
  (∀ k x s, xs !! k = Some x → P k s → ∃ s', body x s = Ok s' ∧ P (S k) s') →
  ∃ s', for_ xs body s0 = Ok s' ∧ P (length xs) s'.
Proof.
  revert P s0. induction xs as [|x xs IH]; intros P s0 H0 Hstep; simpl.
  - eauto.
  - destruct (Hstep 0%nat x s0) as (s1 & -> & H1); [done..|].
    rewrite bind_Ok. apply (IH (λ k, P (S k))); [done|].
    intros k y s Hk. by apply (Hstep (S k)).
Qed.

Lemma lookup_range n k i : range n !! k = Some i → i = k ∧ (k < n)%nat.
Proof. unfold range. intros [-> ?]%lookup_seq. done. Qed.

Lemma lookup_enumerate {A} start (xs : list A) k p :
  enumerate start xs !! k = Some p →
  p.1 = (start + k)%nat ∧ xs !! k = Some p.2.
Proof.
  unfold enumerate. rewrite list_lookup_imap.
  destruct (xs !! k); simpl; [|done]. by intros [= <-].
Qed.

Lemma length_enumerate {A} start (xs : list A) :
  length (enumerate start xs) = length xs.
Proof. apply length_imap. Qed.

Lemma length_range n : length (range n) = n.
Proof. apply length_seq. Qed.

(** ** The cost map *)

Lemma cost_of_INSERT : cost_of INSERT = Ok 3.
Proof. reflexivity. Qed.
Lemma cost_of_DELETE : cost_of DELETE = Ok 2.
Proof. reflexivity. Qed.
Lemma cost_of_REPLACE : cost_of REPLACE = Ok 4.
Proof. reflexivity. Qed.
Lemma cost_of_MATCH : cost_of MATCH = Ok 0.
Proof. reflexivity. Qed.

(** ** What [get_matrix] builds *)

Section matrix_facts.
Context {E : Type} `{EqDecision E}.
Implicit Types (A B : list E) (mat : list (list Z)) (am : list (list string)).


Lemma interior_ok_frame A B mat am mat' am' i j p q :
  (∀ p' q', p' ≠ S i ∨ q' ≠ S j → cell mat' p' q' = cell mat p' q') →
  (∀ p' q', p' ≠ S i ∨ q' ≠ S j → cell am' p' q' = cell am p' q') →
  (p < i ∨ (p = i ∧ q < j))%nat →
  interior_ok A B mat am p q → interior_ok A B mat' am' p q.
Proof.
  intros Hmat Ham Hne (a & b & l & u & d & Ha & Hb & Hl & Hu & Hd & Hopt & Hact).
  exists a, b, l, u, d. cbv zeta in *.
  rewrite !Hmat, Ham by lia. done.
Qed.

Lemma fill_cell_spec A B mat am i j a b :
  filled A B i j mat am → A !! i = Some a → B !! j = Some b →
  ∃ mat' am', fill_cell (1 + i) a (1 + j) b (mat, am) = Ok (mat', am') ∧
              filled A B i (S j) mat' am'.
Proof.
  intros [Hsm Hsa Hrow Hcol Hint] Ha Hb.
  pose proof (lookup_lt_Some _ _ _ Ha) as Hi.
  pose proof (lookup_lt_Some _ _ _ Hb) as Hj.
  destruct (cell_is_Some _ _ mat (S i) j Hsm) as [l Hl]; [lia..|].
  destruct (cell_is_Some _ _ mat i (S j) Hsm) as [u Hu]; [lia..|].
  destruct (cell_is_Some _ _ mat i j Hsm) as [d Hd]; [lia..|].
  set (replace_cost := if decide (a = b) then 0 else 4).
  set (optimal := min3 (l + 3) (u + 2) (d + replace_cost)).
  destruct (setitem2_spec _ _ mat (S i) (S j) optimal Hsm)
    as (mat' & Hset & Hsm' & Hnew & Hframe); [lia..|].
  set (action := if decide (optimal = l + 3) then INSERT
                 else if decide (optimal = u + 2) then DELETE
                 else if decide (a = b) then MATCH else REPLACE).
  destruct (setitem2_spec _ _ am (S i) (S j) action Hsa)
    as (am' & Hseta & Hsa' & Hnewa & Hframea); [lia..|].
  exists mat', am'. split.
  - unfold fill_cell.
    replace (1 + j - 1)%nat with j by lia.
    replace (1 + i - 1)%nat with i by lia.
    change (1 + i)%nat with (S i). change (1 + j)%nat with (S j).
    rewrite (getitem2_cell _ _ _ _ Hl), bind_Ok, cost_of_INSERT, bind_Ok.
    rewrite (getitem2_cell _ _ _ _ Hu), bind_Ok, cost_of_DELETE, bind_Ok.
    rewrite (getitem2_cell _ _ _ _ Hd), bind_Ok.
    replace (cost_of (if decide (a = b) then MATCH else REPLACE))
      with (Ok (A:=Z) replace_cost)
      by (unfold replace_cost; by destruct (decide (a = b))).
    rewrite bind_Ok. cbv zeta. fold optimal. rewrite Hset, bind_Ok.
    subst action. repeat case_decide; try by rewrite Hseta.
    all: exfalso; unfold optimal, min3 in *; lia.
  - split; [done..| | |].
    + intros q Hq. rewrite Hframe, Hframea by lia. by apply Hrow.
    + intros p Hp. rewrite Hframe, Hframea by lia. by apply Hcol.
    + intros p q Hpq. destruct (decide (p = i ∧ q = j)) as [[-> ->]|Hne].
      * exists a, b, l, u, d. cbv zeta.
        rewrite !Hframe by lia. fold replace_cost optimal. done.
      * apply (interior_ok_frame A B mat am mat' am' i j); [done..|lia|].
        apply Hint. lia.
Qed.

Lemma fill_row_spec A B mat am i a :
  filled A B i 0 mat am → A !! i = Some a →
  ∃ mat' am',
    for_ (enumerate 1 B)
      (λ '(j, char_final) s, fill_cell (1 + i) a j char_final s) (mat, am)
    = Ok (mat', am') ∧ filled A B (S i) 0 mat' am'.
Proof.
  intros Hfilled Ha.
  destruct (for_invariant (λ q s, filled A B i q s.1 s.2) (enumerate 1 B)
    (λ '(j, char_final) s, fill_cell (1 + i) a j char_final s) (mat, am))
    as ([mat' am'] & Hrun & Hinv); [done| |].
  - intros q [j b] [mat1 am1] [Hj Hb]%lookup_enumerate Hq. simpl in *. subst j.
    destruct (fill_cell_spec A B mat1 am1 i q a b) as (mat2 & am2 & ? & ?);
      [done..|].
    by exists (mat2, am2).
  - exists mat', am'. split; [done|]. rewrite length_enumerate in Hinv.
    destruct Hinv as [? ? ? ? Hint]. split; [done..|].
    intros p q Hpq. apply Hint. simpl. lia.
Qed.

Lemma fill_rows_spec A B mat am :
  filled A B 0 0 mat am →
  ∃ mat' am',
    for_ (enumerate 1 A) (λ '(i, char_origin) s,
      for_ (enumerate 1 B) (λ '(j, char_final) s,
        fill_cell i char_origin j char_final s) s) (mat, am)
    = Ok (mat', am') ∧ filled A B (length A) 0 mat' am'.
Proof.
  intros Hfilled.
  destruct (for_invariant (λ k s, filled A B k 0 s.1 s.2) (enumerate 1 A)
    (λ '(i, char_origin) s,
      for_ (enumerate 1 B) (λ '(j, char_final) s,
        fill_cell i char_origin j char_final s) s) (mat, am))
    as ([mat' am'] & Hrun & Hinv); [done| |].
  - intros k [i a] [mat1 am1] [Hi Ha]%lookup_enumerate Hk. simpl in *. subst i.
    destruct (fill_row_spec A B mat1 am1 k a) as (mat2 & am2 & ? & ?);
      [done..|].
    by exists (mat2, am2).
  - exists mat', am'. by rewrite length_enumerate in Hinv.
Qed.

(** The two loops that write the borders. *)
Lemma borders_spec A B :
  ∃ mat am,
    (s ← for_ (range (length A + 1)) (λ i '(matrix, action_matrix),
           matrix ← setitem2 matrix i 0 (Z.of_nat i);
           action_matrix ← setitem2 action_matrix i 0 DELETE;
           Ok (matrix, action_matrix))
         (replicate (length A + 1) (replicate (length B + 1) 0),
          replicate (length A + 1) (replicate (length B + 1) ""));
     for_ (range (length B + 1)) (λ j '(matrix, action_matrix),
           matrix ← setitem2 matrix 0 j (Z.of_nat j);
           action_matrix ← setitem2 action_matrix 0 j INSERT;
           Ok (matrix, action_matrix)) s) = Ok (mat, am) ∧
    filled A B 0 0 mat am.
Proof.
  set (m := length A). set (n := length B).
  replace (m + 1)%nat with (S m) by lia. replace (n + 1)%nat with (S n) by lia.
  destruct (for_invariant
    (λ k (s : list (list Z) * list (list string)),
       shape (S m) (S n) s.1 ∧ shape (S m) (S n) s.2 ∧
       ∀ i, (i < k)%nat →
         cell s.1 i 0 = Some (Z.of_nat i) ∧ cell s.2 i 0 = Some DELETE)
    (range (S m))
    (λ i '(matrix, action_matrix),
           matrix ← setitem2 matrix i 0 (Z.of_nat i);
           action_matrix ← setitem2 action_matrix i 0 DELETE;
           Ok (matrix, action_matrix))
    (replicate (S m) (replicate (S n) 0), replicate (S m) (replicate (S n) "")))
    as ([mat1 am1] & Hrun1 & Hs1 & Hs1a & Hcol).
  { cbn [fst snd]. split; [apply shape_replicate|]. split; [apply shape_replicate|].
    intros; lia. }
  { intros k i [mat0 am0] [-> Hk]%lookup_range (Hs & Hsa & Hdone). cbn [fst snd] in *.
    destruct (setitem2_spec _ _ mat0 k 0 (Z.of_nat k) Hs)
      as (mat' & -> & ? & ? & Hfr); [lia..|].
    destruct (setitem2_spec _ _ am0 k 0 DELETE Hsa)
      as (am' & -> & ? & ? & Hfra); [lia..|].
    exists (mat', am'). cbn [fst snd]. split; [done|]. split; [done|]. split; [done|].
    intros i Hi. destruct (decide (i = k)) as [->|Hne]; [done|].
    rewrite Hfr, Hfra by lia. apply Hdone. lia. }
  rewrite Hrun1, bind_Ok. rewrite length_range in Hcol. cbn [fst snd] in *.
  destruct (for_invariant
    (λ k (s : list (list Z) * list (list string)),
       shape (S m) (S n) s.1 ∧ shape (S m) (S n) s.2 ∧
       (∀ i, (1 ≤ i ≤ m)%nat →
         cell s.1 i 0 = Some (Z.of_nat i) ∧ cell s.2 i 0 = Some DELETE) ∧
       ∀ j, (j < k)%nat →
         cell s.1 0 j = Some (Z.of_nat j) ∧ cell s.2 0 j = Some INSERT)
    (range (S n))
    (λ j '(matrix, action_matrix),
           matrix ← setitem2 matrix 0 j (Z.of_nat j);
           action_matrix ← setitem2 action_matrix 0 j INSERT;
           Ok (matrix, action_matrix))
    (mat1, am1))
    as ([mat2 am2] & Hrun2 & Hs2 & Hs2a & Hcol2 & Hrow2).
  { cbn [fst snd]. split; [done|]. split; [done|]. split; [|intros; lia].
    intros i Hi. apply Hcol. lia. }
  { intros k j [mat0 am0] [-> Hk]%lookup_range (Hs & Hsa & Hc & Hdone).
    cbn [fst snd] in *.
    destruct (setitem2_spec _ _ mat0 0 k (Z.of_nat k) Hs)
      as (mat' & -> & ? & ? & Hfr); [lia..|].
    destruct (setitem2_spec _ _ am0 0 k INSERT Hsa)
      as (am' & -> & ? & ? & Hfra); [lia..|].
    exists (mat', am'). cbn [fst snd]. split; [done|]. split; [done|]. split; [done|].
    split.
    - intros i Hi. rewrite Hfr, Hfra by lia. by apply Hc.
    - intros j Hj. destruct (decide (j = k)) as [->|Hne]; [done|].
      rewrite Hfr, Hfra by lia. apply Hdone. lia. }
  exists mat2, am2. split; [done|]. rewrite length_range in Hrow2. cbn [fst snd] in *.
  split; [done..| | |].
  - intros j Hj. apply Hrow2. lia.
  - done.
  - intros i j Hij. lia.
Qed.

(** [get_matrix] never raises, and its tables are completely filled. *)
Lemma get_matrix_tables_spec A B :
  ∃ mat am, get_matrix_tables A B = Ok (mat, am) ∧
            filled A B (length A) 0 mat am.
Proof.
  destruct (borders_spec A B) as (mat0 & am0 & Hb & Hf0).
  destruct (fill_rows_spec A B mat0 am0 Hf0) as (mat & am & Hrun & Hf).
  exists mat, am. split; [|done].
  unfold get_matrix_tables. cbv zeta.
  apply bind_Ok_inv in Hb as (s1 & Hb1 & Hb2).
  by rewrite Hb1, bind_Ok, Hb2, bind_Ok.
Qed.

Lemma get_matrix_spec A B :
  ∃ mat am, get_matrix_tables A B = Ok (mat, am) ∧ get_matrix A B = Ok am ∧
            filled A B (length A) 0 mat am.
Proof.
  destruct (get_matrix_tables_spec A B) as (mat & am & Hrun & Hf).
  exists mat, am. unfold get_matrix. by rewrite Hrun.
Qed.

End matrix_facts.

(** ** The traceback *)

Lemma py_index_nat {A} (l : list A) (k : nat) x :
  l !! k = Some x → py_index l (Z.of_nat k) = Ok x.
Proof.
  intros Hk. pose proof (lookup_lt_Some _ _ _ Hk). unfold py_index.
  cbv zeta. rewrite (decide_False (P := Z.of_nat k < 0)) by lia.
  rewrite decide_True by lia. rewrite Nat2Z.id. by apply getitem_Some.
Qed.

Lemma py_index2_cell {A} (m : list (list A)) (i j : nat) x :
  cell m i j = Some x →
  (row ← py_index m (Z.of_nat i); py_index row (Z.of_nat j)) = Ok x.
Proof.
  unfold cell. destruct (m !! i) as [row|] eqn:Hrow; simpl; [|done].
  intros Hx. rewrite (py_index_nat _ _ _ Hrow), bind_Ok.
  by apply py_index_nat.
Qed.

Lemma prescription_loop_step fuel am i j prescr action :
  i ≠ 0 ∨ j ≠ 0 →
  (row ← py_index am i; py_index row j) = Ok action →
  prescription_loop (S fuel) am i j prescr =
    if decide (action = DELETE) then
      prescription_loop fuel am (i - 1) j (prescr ++ [action])
    else if decide (action = INSERT) then
      prescription_loop fuel am i (j - 1) (prescr ++ [action])
    else if decide (action = REPLACE ∨ action = MATCH) then
      prescription_loop fuel am (i - 1) (j - 1) (prescr ++ [action])
    else Raise (RuntimeError "Unknown action: %s" action).
Proof.
  intros Hij Hact. simpl. rewrite decide_False by lia.
  by rewrite Hact, bind_Ok.
Qed.

Lemma length_row_concat {A} (m : list (list A)) i row :
  m !! i = Some row → (length row ≤ length (concat m))%nat.
Proof.
  revert i. induction m as [|r m IH]; intros [|i]; simpl; try done.
  - intros [= ->]. rewrite length_app. lia.
  - intros Hrow. rewrite length_app. specialize (IH _ Hrow). lia.
Qed.

Section traceback_facts.
Context {E : Type} `{EqDecision E}.
Implicit Types (A B : list E) (mat : list (list Z)) (am : list (list string)).


Lemma alignment_bounds A B i j p :
  alignment A B i j p → (i ≤ length A)%nat ∧ (j ≤ length B)%nat.
Proof.
  induction 1 as [| | | i j a p Ha Hb|];
    try apply lookup_lt_Some in Ha; try apply lookup_lt_Some in Hb; lia.
Qed.

(** The action of an interior cell is one of the four tags, and it is Match
    on equal elements only. *)
Lemma interior_action A B mat am i j :
  interior_ok A B mat am i j →
  (i < length A)%nat ∧ (j < length B)%nat ∧
  (cell am (S i) (S j) = Some INSERT ∨ cell am (S i) (S j) = Some DELETE ∨
   cell am (S i) (S j) = Some REPLACE ∨
   (cell am (S i) (S j) = Some MATCH ∧ ∃ a, A !! i = Some a ∧ B !! j = Some a)).
Proof.
  intros (a & b & l & u & d & Ha & Hb & _ & _ & _ & _ & Hact).
  split; [by eapply lookup_lt_Some|]. split; [by eapply lookup_lt_Some|].
  rewrite Hact. repeat case_decide; subst; eauto 10.
Qed.

Lemma prescription_loop_spec A B mat am fuel i j prescr :
  filled A B (length A) 0 mat am →
  alignment A B i j (reverse prescr) → (i + j ≤ fuel)%nat →
  ∃ p, prescription_loop fuel am (Z.of_nat i) (Z.of_nat j) prescr = Ok p ∧
       alignment A B 0 0 (reverse p).
Proof.
  intros Hf. revert i j prescr.
  induction fuel as [|fuel IH]; intros i j prescr Hp Hfuel.
  { assert (i = 0 ∧ j = 0)%nat as [-> ->] by lia. simpl. eauto. }
  destruct (decide (i = 0 ∧ j = 0)%nat) as [[-> ->]|Hij].
  { simpl. eauto. }
  pose proof (alignment_bounds _ _ _ _ _ Hp) as [Hi Hj].
  assert (∀ action, alignment A B i j (reverse (prescr ++ [action])) =
                    alignment A B i j (action :: reverse prescr)) as Hsnoc
    by (intros; by rewrite reverse_snoc).
  destruct i as [|i]; [destruct j as [|j]; [lia|]|destruct j as [|j]].
  - (* row 0: Insert *)
    destruct (filled_row0 _ _ _ _ _ _ Hf (S j)) as [_ Hact]; [lia|].
    rewrite (prescription_loop_step _ _ _ _ _ INSERT),
      decide_False, decide_True by (done || lia || by apply py_index2_cell).
    replace (Z.of_nat (S j) - 1) with (Z.of_nat j) by lia.
    apply IH; [|lia]. rewrite reverse_snoc. apply alignment_insert; [lia|done].
  - (* column 0: Delete *)
    destruct (filled_col0 _ _ _ _ _ _ Hf (S i)) as [_ Hact]; [lia|].
    rewrite (prescription_loop_step _ _ _ _ _ DELETE),
      decide_True by (done || lia || by apply py_index2_cell).
    replace (Z.of_nat (S i) - 1) with (Z.of_nat i) by lia.
    apply IH; [|lia]. rewrite reverse_snoc. apply alignment_delete; [lia|done].
  - (* interior *)
    destruct (interior_action A B mat am i j) as (Hi' & Hj' & Hact).
    { apply (filled_interior _ _ _ _ _ _ Hf). lia. }
    destruct Hact as [Hact|[Hact|[Hact|[Hact (a & Ha & Hb)]]]].
    + rewrite (prescription_loop_step _ _ _ _ _ INSERT),
        decide_False, decide_True by (done || lia || by apply py_index2_cell).
      replace (Z.of_nat (S j) - 1) with (Z.of_nat j) by lia.
      apply IH; [|lia]. rewrite reverse_snoc.
      apply alignment_insert; [lia|done].
    + rewrite (prescription_loop_step _ _ _ _ _ DELETE),
        decide_True by (done || lia || by apply py_index2_cell).
      replace (Z.of_nat (S i) - 1) with (Z.of_nat i) by lia.
      apply IH; [|lia]. rewrite reverse_snoc.
      apply alignment_delete; [lia|done].
    + rewrite (prescription_loop_step _ _ _ _ _ REPLACE),
        decide_False, decide_False, decide_True
        by (done || lia || (by left) || by apply py_index2_cell).
      replace (Z.of_nat (S i) - 1) with (Z.of_nat i) by lia.
      replace (Z.of_nat (S j) - 1) with (Z.of_nat j) by lia.
      apply IH; [|lia]. rewrite reverse_snoc.
      apply alignment_replace; [lia..|done].
    + rewrite (prescription_loop_step _ _ _ _ _ MATCH),
        decide_False, decide_False, decide_True
        by (done || lia || (by right) || by apply py_index2_cell).
      replace (Z.of_nat (S i) - 1) with (Z.of_nat i) by lia.
      replace (Z.of_nat (S j) - 1) with (Z.of_nat j) by lia.
      apply IH; [|lia]. rewrite reverse_snoc.
      by apply (alignment_match _ _ _ _ a).
Qed.

Lemma get_prescription_spec A B mat am :
  filled A B (length A) 0 mat am →
  ∃ p, get_prescription am = Ok p ∧ alignment A B 0 0 p.
Proof.
  intros Hf. destruct (filled_shape_am _ _ _ _ _ _ Hf) as [Hrows Hcols].
  destruct (lookup_lt_is_Some_2 am 0) as [row0 Hrow0]; [lia|].
  pose proof (Hcols _ _ Hrow0) as Hlen0.
  pose proof (length_row_concat _ _ _ Hrow0).
  destruct (prescription_loop_spec A B mat am (prescription_fuel am)
              (length A) (length B) []) as (p & Hrun & Hp);
    [done|apply alignment_end|unfold prescription_fuel; lia|].
  exists (reverse p). split; [|done].
  unfold get_prescription. cbv zeta.
  pose proof (py_index_nat _ 0%nat _ Hrow0) as Hidx.
  change (Z.of_nat 0) with 0 in Hidx. rewrite Hidx, bind_Ok.
  replace (Z.of_nat (length am) - 1) with (Z.of_nat (length A)) by lia.
  replace (Z.of_nat (length row0) - 1) with (Z.of_nat (length B)) by lia.
  by rewrite Hrun.
Qed.

End traceback_facts.

(** ** The replay *)


Lemma cursor_of_cons a ops :
  cursor_of (a :: ops) = (cursor_of [a] + cursor_of ops)%nat.
Proof.
  unfold cursor_of. change (a :: ops) with ([a] ++ ops).
  by rewrite filter_app, length_app.
Qed.

Lemma consumed_of_cons a ops :
  consumed_of (a :: ops) = (consumed_of [a] + consumed_of ops)%nat.
Proof.
  unfold consumed_of. change (a :: ops) with ([a] ++ ops).
  by rewrite filter_app, length_app.
Qed.

Lemma total_cost_cons a ops :
  total_cost (a :: ops) = total_cost [a] + total_cost ops.
Proof. unfold total_cost. simpl. lia. Qed.

Lemma total_cost_app ops1 ops2 :
  total_cost (ops1 ++ ops2) = total_cost ops1 + total_cost ops2.
Proof.
  induction ops1 as [|a ops1 IH]; [done|].
  rewrite <- app_comm_cons, (total_cost_cons a ops1), total_cost_cons. lia.
Qed.

Lemma ops_DELETE :
  cursor_of [DELETE] = 0%nat ∧ consumed_of [DELETE] = 1%nat ∧
  total_cost [DELETE] = 2.
Proof. done. Qed.
Lemma ops_INSERT :
  cursor_of [INSERT] = 1%nat ∧ consumed_of [INSERT] = 0%nat ∧
  total_cost [INSERT] = 3.
Proof. done. Qed.
Lemma ops_MATCH :
  cursor_of [MATCH] = 1%nat ∧ consumed_of [MATCH] = 1%nat ∧
  total_cost [MATCH] = 0.
Proof. done. Qed.
Lemma ops_REPLACE :
  cursor_of [REPLACE] = 1%nat ∧ consumed_of [REPLACE] = 1%nat ∧
  total_cost [REPLACE] = 4.
Proof. done. Qed.

Ltac ops_arith :=
  pose proof ops_DELETE; pose proof ops_INSERT;
  pose proof ops_MATCH; pose proof ops_REPLACE; lia.

Section replay_facts.
Context {E : Type} `{EqDecision E}.
Implicit Types (A B : list E) (h : gmap loc (list E)).

Lemma redaction_step_DELETE (final : list E) r total i h :
  (i < length (h !!! r))%nat →
  redaction_step final r DELETE total i h =
    Ok (total + 2, i, <[r := delete i (h !!! r)]> h).
Proof.
  intros Hi. unfold redaction_step, pop.
  rewrite decide_True by done. by rewrite decide_True by done.
Qed.

Lemma redaction_step_INSERT (final : list E) r total i h x :
  final !! i = Some x →
  redaction_step final r INSERT total i h =
    Ok (total + 3, S i, <[r := list_insert_at (h !!! r) i x]> h).
Proof.
  intros Hx. unfold redaction_step.
  rewrite decide_False, decide_True by done.
  rewrite (getitem_Some _ _ _ Hx), !bind_Ok.
  by replace (i + 1)%nat with (S i) by lia.
Qed.

Lemma redaction_step_MATCH (final : list E) r total i h :
  redaction_step final r MATCH total i h = Ok (total + 0, S i, h).
Proof.
  unfold redaction_step.
  rewrite decide_False, decide_False, decide_True by done.
  rewrite !bind_Ok. by replace (i + 1)%nat with (S i) by lia.
Qed.

Lemma redaction_step_REPLACE (final : list E) r total i h x :
  final !! i = Some x → (i < length (h !!! r))%nat →
  redaction_step final r REPLACE total i h =
    Ok (total + 4, S i, <[r := <[i := x]> (h !!! r)]> h).
Proof.
  intros Hx Hi. unfold redaction_step, setitem.
  rewrite decide_False, decide_False, decide_False, decide_True by done.
  rewrite (getitem_Some _ _ _ Hx), !bind_Ok.
  rewrite decide_True by done. rewrite !bind_Ok.
  by replace (i + 1)%nat with (S i) by lia.
Qed.

(** The effect of the four operations on a working sequence that is the
    first [j] elements of [B] followed by [A] from position [i]. *)
Lemma work_delete A B i j a :
  (j ≤ length B)%nat → A !! i = Some a →
  delete j (take j B ++ drop i A) = take j B ++ drop (S i) A.
Proof.
  intros Hj Ha. rewrite (drop_S _ _ _ Ha).
  assert (length (take j B) = j) as Hlen by (rewrite length_take; lia).
  rewrite <- Hlen at 1. apply delete_middle.
Qed.

Lemma work_insert A B i j b :
  B !! j = Some b →
  list_insert_at (take j B ++ drop i A) j b = take (S j) B ++ drop i A.
Proof.
  intros Hb. pose proof (lookup_lt_Some _ _ _ Hb).
  assert (length (take j B) = j) as Hlen by (rewrite length_take; lia).
  unfold list_insert_at.
  rewrite <- Hlen at 1 3. rewrite take_app_length, drop_app_length.
  rewrite (take_S_r _ _ _ Hb), <- app_assoc. done.
Qed.

Lemma work_match A B i j a :
  A !! i = Some a → B !! j = Some a →
  take j B ++ drop i A = take (S j) B ++ drop (S i) A.
Proof.
  intros Ha Hb. rewrite (drop_S _ _ _ Ha), (take_S_r _ _ _ Hb), <- app_assoc.
  done.
Qed.

Lemma work_replace A B i j a b :
  A !! i = Some a → B !! j = Some b →
  <[j := b]> (take j B ++ drop i A) = take (S j) B ++ drop (S i) A.
Proof.
  intros Ha Hb. pose proof (lookup_lt_Some _ _ _ Hb).
  assert (length (take j B) = j) as Hlen by (rewrite length_take; lia).
  rewrite (drop_S _ _ _ Ha), (take_S_r _ _ _ Hb), <- app_assoc.
  rewrite <- Hlen at 1. rewrite <- (Nat.add_0_r (length (take j B))).
  by rewrite insert_app_r.
Qed.

Lemma work_length A B i j :
  (i ≤ length A)%nat → (j ≤ length B)%nat →
  length (take j B ++ drop i A) = (j + (length A - i))%nat.
Proof. intros. rewrite length_app, length_take, length_drop. lia. Qed.


Lemma step_at_head A B r i j total a p h i' j' total' :
  i' = (i + consumed_of [a])%nat → j' = (j + cursor_of [a])%nat →
  total' = total + total_cost [a] →
  h !!! r = take j' B ++ drop i' A →
  step_at A B r i j total (a :: p) 0 (TraceStep a j' total' r, h).
Proof. intros -> -> -> Hh. by repeat split. Qed.

Lemma step_at_tail A B r i j total a p k y i' j' total' :
  i' = (i + consumed_of [a])%nat → j' = (j + cursor_of [a])%nat →
  total' = total + total_cost [a] →
  step_at A B r i' j' total' p k y →
  step_at A B r i j total (a :: p) (S k) y.
Proof.
  intros -> -> ->. unfold step_at. cbv zeta. intros Hy.
  rewrite (firstn_cons (S k) a p).
  rewrite (cursor_of_cons a (take (S k) p)).
  rewrite (consumed_of_cons a (take (S k) p)).
  rewrite (total_cost_cons a (take (S k) p)).
  rewrite !Nat.add_assoc, !Z.add_assoc. done.
Qed.

(** The steps of a run that yields [y] first and then [ys]. *)
Lemma steps_cons A B r i j total a p h i' j' total' ys :
  i' = (i + consumed_of [a])%nat → j' = (j + cursor_of [a])%nat →
  total' = total + total_cost [a] →
  h !!! r = take j' B ++ drop i' A →
  (∀ k y, ys !! k = Some y → step_at A B r i' j' total' p k y) →
  ∀ k y, ((TraceStep a j' total' r, h) :: ys) !! k = Some y →
         step_at A B r i j total (a :: p) k y.
Proof.
  intros Hi Hj Ht Hh Hys [|k] y; simpl.
  - intros [= <-]. by eapply step_at_head.
  - intros Hy. eapply step_at_tail; [done..|]. by apply Hys.
Qed.

Lemma redaction_loop_spec A B r p i j total h :
  alignment A B i j p →
  h !!! r = take j B ++ drop i A →
  ∃ ys hf, redaction_loop p B r total j h = (ys, Ok hf) ∧
           length ys = length p ∧ hf !!! r = B ∧
           ∀ k y, ys !! k = Some y → step_at A B r i j total p k y.
Proof.
  intros Hp. revert total h.
  induction Hp as [|i j p Hi Hp IH|i j p Hj Hp IH|i j a p Ha Hb Hp IH
                  |i j p Hi Hj Hp IH]; intros total h Hh.
  - exists [], h. simpl. rewrite Hh, take_ge, drop_ge, app_nil_r by lia.
    split; [done|]. split; [done|]. split; [done|]. intros k y; done.
  - pose proof (alignment_bounds _ _ _ _ _ Hp) as [_ Hj].
    destruct (lookup_lt_is_Some_2 A i Hi) as [a Ha].
    set (h' := <[r := delete j (h !!! r)]> h).
    assert (h' !!! r = take j B ++ drop (S i) A) as Hh'.
    { unfold h'. rewrite lookup_total_insert_eq, Hh. by eapply work_delete. }
    destruct (IH (total + 2) h' Hh') as (ys & hf & Hrun & Hlen & Hhf & Hys).
    exists ((TraceStep DELETE j (total + 2) r, h') :: ys), hf.
    simpl. rewrite redaction_step_DELETE by (rewrite Hh, work_length; lia).
    fold h'. rewrite Hrun.
    split; [done|]. split; [by rewrite Hlen|]. split; [done|].
    by apply (steps_cons _ _ _ _ _ _ _ _ _ (S i)); [ops_arith..| |].
  - destruct (lookup_lt_is_Some_2 B j Hj) as [b Hb].
    set (h' := <[r := list_insert_at (h !!! r) j b]> h).
    assert (h' !!! r = take (S j) B ++ drop i A) as Hh'.
    { unfold h'. rewrite lookup_total_insert_eq, Hh. by eapply work_insert. }
    destruct (IH (total + 3) h' Hh') as (ys & hf & Hrun & Hlen & Hhf & Hys).
    exists ((TraceStep INSERT (S j) (total + 3) r, h') :: ys), hf.
    simpl. rewrite (redaction_step_INSERT _ _ _ _ _ b) by done.
    fold h'. rewrite Hrun.
    split; [done|]. split; [by rewrite Hlen|]. split; [done|].
    by apply (steps_cons _ _ _ _ _ _ _ _ _ i); [ops_arith..| |].
  - assert (h !!! r = take (S j) B ++ drop (S i) A) as Hh'.
    { rewrite Hh. by eapply work_match. }
    destruct (IH (total + 0) h Hh') as (ys & hf & Hrun & Hlen & Hhf & Hys).
    exists ((TraceStep MATCH (S j) (total + 0) r, h) :: ys), hf.
    simpl. rewrite redaction_step_MATCH. rewrite Hrun.
    split; [done|]. split; [by rewrite Hlen|]. split; [done|].
    by apply (steps_cons _ _ _ _ _ _ _ _ _ (S i)); [ops_arith..| |].
  - destruct (lookup_lt_is_Some_2 A i Hi) as [a Ha].
    destruct (lookup_lt_is_Some_2 B j Hj) as [b Hb].
    set (h' := <[r := <[j := b]> (h !!! r)]> h).
    assert (h' !!! r = take (S j) B ++ drop (S i) A) as Hh'.
    { unfold h'. rewrite lookup_total_insert_eq, Hh. by eapply work_replace. }
    destruct (IH (total + 4) h' Hh') as (ys & hf & Hrun & Hlen & Hhf & Hys).
    exists ((TraceStep REPLACE (S j) (total + 4) r, h') :: ys), hf.
    simpl. rewrite (redaction_step_REPLACE _ _ _ _ _ b)
      by (done || rewrite Hh, work_length; lia).
    fold h'. rewrite Hrun.
    split; [done|]. split; [by rewrite Hlen|]. split; [done|].
    by apply (steps_cons _ _ _ _ _ _ _ _ _ (S i)); [ops_arith..| |].
Qed.

End replay_facts.

(** ** Facts about alignments *)

Section alignment_facts.
Context {E : Type} `{EqDecision E}.
Implicit Types (A B : list E) (h : gmap loc (list E)).

Lemma alignment_counts A B i j p :
  alignment A B i j p →
  (i + consumed_of p)%nat = length A ∧ (j + cursor_of p)%nat = length B.
Proof.
  induction 1 as [|i j p Hi Hp IH|i j p Hj Hp IH|i j a p Ha Hb Hp IH
                 |i j p Hi Hj Hp IH].
  - split; unfold consumed_of, cursor_of; simpl; lia.
  - rewrite (cursor_of_cons DELETE), (consumed_of_cons DELETE). ops_arith.
  - rewrite (cursor_of_cons INSERT), (consumed_of_cons INSERT). ops_arith.
  - rewrite (cursor_of_cons MATCH), (consumed_of_cons MATCH). ops_arith.
  - rewrite (cursor_of_cons REPLACE), (consumed_of_cons REPLACE). ops_arith.
Qed.

Lemma alignment_length A B i j p :
  alignment A B i j p →
  (length p ≤ (length A - i) + (length B - j))%nat ∧
  (length A - i ≤ length p)%nat ∧ (length B - j ≤ length p)%nat.
Proof.
  induction 1 as [|i j p Hi Hp IH|i j p Hj Hp IH|i j a p Ha Hb Hp IH
                 |i j p Hi Hj Hp IH]; simpl; try lia.
  apply lookup_lt_Some in Ha, Hb. lia.
Qed.

Lemma alignment_nil_l B i j p :
  alignment [] B i j p → p = replicate (length B - j) INSERT.
Proof.
  induction 1 as [|i j p Hi Hp IH|i j p Hj Hp IH|i j a p Ha Hb Hp IH
                 |i j p Hi Hj Hp IH]; simpl in *; try lia; try done.
  - by rewrite Nat.sub_diag.
  - rewrite IH. by replace (length B - j)%nat with (S (length B - S j)) by lia.
Qed.

Lemma alignment_nil_r A i j p :
  alignment A [] i j p → p = replicate (length A - i) DELETE.
Proof.
  induction 1 as [|i j p Hi Hp IH|i j p Hj Hp IH|i j a p Ha Hb Hp IH
                 |i j p Hi Hj Hp IH]; simpl in *; try lia; try done.
  - by rewrite Nat.sub_diag.
  - rewrite IH. by replace (length A - i)%nat with (S (length A - S i)) by lia.
Qed.

(** The three stages in a row: the tables are filled, the traceback returns
    a prescription, and the prescription is an alignment of the inputs. *)
Lemma pipeline_spec A B :
  ∃ mat am p,
    get_matrix_tables A B = Ok (mat, am) ∧ get_matrix A B = Ok am ∧
    get_prescription am = Ok p ∧
    filled A B (length A) 0 mat am ∧ alignment A B 0 0 p.
Proof.
  destruct (get_matrix_spec A B) as (mat & am & Ht & Hm & Hf).
  destruct (get_prescription_spec A B mat am Hf) as (p & Hp & Hal).
  by exists mat, am, p.
Qed.

(** Every yielded step carries the location the loop was given. *)
Lemma redaction_loop_result (final : list E) r p total i h y :
  y ∈ (redaction_loop p final r total i h).1 → ts_result y.1 = r.
Proof.
  revert total i h. induction p as [|a p IH]; intros total i h; simpl.
  - by intros ?%elem_of_nil.
  - destruct (redaction_step final r a total i h) as [[[total' i'] h']| |];
      simpl; try by intros ?%elem_of_nil.
    specialize (IH total' i' h').
    destruct (redaction_loop p final r total' i' h') as [ys res]. simpl in *.
    intros [->|Hy]%elem_of_cons; [done|]. by apply IH.
Qed.

Lemma get_redaction_spec A B p h0 :
  alignment A B 0 0 p →
  ∃ ys hf, get_redaction p A B h0 = (ys, Ok hf) ∧
           length ys = length p ∧ hf !!! (alloc h0 A).1 = B ∧
           ∀ k y, ys !! k = Some y →
                  step_at A B (alloc h0 A).1 0 0 0 p k y.
Proof.
  intros Hp. unfold get_redaction, alloc. cbn [fst].
  apply (redaction_loop_spec A B _ p 0 0); [done|].
  by rewrite lookup_total_insert_eq, take_0, drop_0.
Qed.

End alignment_facts.

(** ** The traceback on an arbitrary matrix *)

Lemma py_index_cases {A} (l : list A) (i : Z) :
  (∃ x, py_index l i = Ok x ∧ x ∈ l ∧
        - Z.of_nat (length l) ≤ i < Z.of_nat (length l)) ∨
  py_index l i = Raise IndexError.
Proof.
  unfold py_index. cbv zeta.
  destruct (decide (0 ≤ (if decide (i < 0) then i + Z.of_nat (length l) else i)
                    < Z.of_nat (length l))) as [Hk|Hk]; [|by right].
  left. set (k := if decide (i < 0) then i + Z.of_nat (length l) else i) in *.
  destruct (lookup_lt_is_Some_2 l (Z.to_nat k)) as [x Hx]; [lia|].
  exists x. rewrite (getitem_Some _ _ _ Hx). split; [done|].
  split; [by eapply list_elem_of_lookup_2|].
  unfold k in Hk. destruct (decide (i < 0)); lia.
Qed.

Lemma prescription_loop_unfold fuel am i j prescr :
  prescription_loop fuel am i j prescr =
    if decide (i = 0 ∧ j = 0) then Ok prescr
    else match fuel with
    | O => OutOfFuel
    | S fuel' =>
      action ← (row ← py_index am i; py_index row j);
      if decide (action = DELETE) then
        prescription_loop fuel' am (i - 1) j (prescr ++ [action])
      else if decide (action = INSERT) then
        prescription_loop fuel' am i (j - 1) (prescr ++ [action])
      else if decide (action = REPLACE ∨ action = MATCH) then
        prescription_loop fuel' am (i - 1) (j - 1) (prescr ++ [action])
      else Raise (RuntimeError "Unknown action: %s" action)
    end.
Proof. by destruct fuel. Qed.

(** The cell read by one iteration, when the read does not raise. *)
Lemma read_cases (am : list (list string)) (i j : Z) :
  (∃ row action,
     (row ← py_index am i; py_index row j) = Ok action ∧
     row ∈ am ∧ action ∈ row ∧
     - Z.of_nat (length am) ≤ i ∧ - Z.of_nat (length row) ≤ j) ∨
  (row ← py_index am i; py_index row j) = Raise IndexError.
Proof.
  destruct (py_index_cases am i) as [(row & -> & Hrow & Hi)| ->]; [|by right].
  rewrite bind_Ok.
  destruct (py_index_cases row j) as [(a & -> & Ha & Hj)| ->]; [|by right].
  left. exists row, a. repeat split; (done || lia).
Qed.

(** Whatever the matrix, the loop ends within the fuel
    [get_prescription] gives it. *)
Lemma prescription_loop_terminates am fuel i j prescr :
  (1 ≤ fuel)%nat →
  i + Z.of_nat (length am) + (j + Z.of_nat (length (concat am))) + 1
    < Z.of_nat fuel →
  prescription_loop fuel am i j prescr ≠ OutOfFuel.
Proof.
  revert i j prescr. induction fuel as [|fuel IH]; intros i j prescr H1 Hm;
    [lia|].
  rewrite prescription_loop_unfold. case_decide; [done|].
  destruct (read_cases am i j) as [(row & a & -> & Hrow & Ha & Hi & Hj)| ->];
    [|done].
  rewrite bind_Ok.
  apply list_elem_of_lookup_1 in Hrow as [k Hk].
  pose proof (length_row_concat _ _ _ Hk).
  repeat case_decide; try done; apply IH; lia.
Qed.

(** The loop raises [RuntimeError] only on a tag of the matrix that is none
    of the four. *)
Lemma prescription_loop_unknown am fuel i j prescr msg a :
  prescription_loop fuel am i j prescr = Raise (RuntimeError msg a) →
  (a ≠ DELETE ∧ a ≠ INSERT ∧ a ≠ REPLACE ∧ a ≠ MATCH) ∧
  ∃ row, row ∈ am ∧ a ∈ row.
Proof.
  revert i j prescr. induction fuel as [|fuel IH]; intros i j prescr;
    rewrite prescription_loop_unfold; case_decide; try done.
  destruct (read_cases am i j) as [(row & a' & -> & Hrow & Ha & _)| ->];
    [|done].
  rewrite bind_Ok. repeat case_decide; try apply IH.
  intros [= _ <-]. split; [tauto|]. by exists row.
Qed.

Lemma get_prescription_terminates am : get_prescription am ≠ OutOfFuel.
Proof.
  unfold get_prescription. cbv zeta.
  destruct (py_index_cases am 0) as [(row0 & -> & Hrow0 & _)| ->]; [|done].
  rewrite bind_Ok.
  apply list_elem_of_lookup_1 in Hrow0 as [k Hk].
  pose proof (length_row_concat _ _ _ Hk).
  pose proof (prescription_loop_terminates am (prescription_fuel am)
    (Z.of_nat (length am) - 1) (Z.of_nat (length row0) - 1) []) as Hterm.
  destruct (prescription_loop _ _ _ _ _); try done.
  exfalso. apply Hterm; unfold prescription_fuel; [lia|lia|done].
Qed.

Lemma get_prescription_unknown am msg a :
  get_prescription am = Raise (RuntimeError msg a) →
  (a ≠ DELETE ∧ a ≠ INSERT ∧ a ≠ REPLACE ∧ a ≠ MATCH) ∧
  ∃ row, row ∈ am ∧ a ∈ row.
Proof.
  unfold get_prescription. cbv zeta.
  destruct (py_index_cases am 0) as [(row0 & -> & Hrow0 & _)| ->]; [|done].
  rewrite bind_Ok.
  destruct (prescription_loop _ _ _ _ _) as [p|e|] eqn:Hloop; try done.
  simpl. intros [= ->]. by eapply prescription_loop_unknown.
Qed.

(** More fuel does not change the outcome of a loop that ended. *)
Lemma prescription_loop_fuel_mono am fuel fuel' i j prescr :
  (fuel ≤ fuel')%nat →
  prescription_loop fuel am i j prescr ≠ OutOfFuel →
  prescription_loop fuel' am i j prescr = prescription_loop fuel am i j prescr.
Proof.
  revert fuel' i j prescr. induction fuel as [|fuel IH];
    intros fuel' i j prescr Hle; rewrite !(prescription_loop_unfold _ am i j);
    case_decide; try done.
  destruct fuel' as [|fuel']; [lia|].
  destruct (row ← py_index am i; py_index row j) as [a| |]; try done.
  rewrite !bind_Ok. repeat case_decide; try done; apply IH; lia.
Qed.

(** ** Equal inputs: the diagonal *)

Section diagonal_facts.
Context {E : Type} `{EqDecision E}.
Implicit Types (A B : list E) (mat : list (list Z)) (am : list (list string)).

Lemma filled_nonneg A B mat am :
  filled A B (length A) 0 mat am →
  ∀ i j x, cell mat i j = Some x → 0 ≤ x.
Proof.
  intros Hf. pose proof (filled_shape_mat _ _ _ _ _ _ Hf) as Hs.
  induction i as [|i IHi]; [|induction j as [|j IHj]]; intros.
  - destruct (cell_lt _ _ _ _ _ _ Hs H) as [_ Hj].
    destruct (filled_row0 _ _ _ _ _ _ Hf j) as [Hc _]; [lia|].
    rewrite Hc in H. injection H as <-. lia.
  - destruct (cell_lt _ _ _ _ _ _ Hs H) as [Hi _].
    destruct (filled_col0 _ _ _ _ _ _ Hf (S i)) as [Hc _]; [lia|].
    rewrite Hc in H. injection H as <-. lia.
  - destruct (cell_lt _ _ _ _ _ _ Hs H) as [Hi Hj].
    destruct (filled_interior _ _ _ _ _ _ Hf i j)
      as (a & b & l & u & d & _ & _ & Hl & Hu & Hd & Hopt & _); [lia|].
    cbv zeta in Hopt. rewrite Hopt in H. injection H as <-.
    apply IHj in Hl. apply IHi in Hu, Hd.
    unfold min3. destruct (decide (a = b)); lia.
Qed.

Lemma filled_diagonal A mat am :
  filled A A (length A) 0 mat am →
  ∀ k, (k ≤ length A)%nat →
       cell mat k k = Some 0 ∧ ((1 ≤ k)%nat → cell am k k = Some MATCH).
Proof.
  intros Hf. induction k as [|k IH]; intros Hk.
  - destruct (filled_row0 _ _ _ _ _ _ Hf 0%nat) as [Hc _]; [lia|].
    split; [done|lia].
  - destruct IH as [Hd0 _]; [lia|].
    destruct (filled_interior _ _ _ _ _ _ Hf k k)
      as (a & b & l & u & d & Ha & Hb & Hl & Hu & Hd & Hopt & Hact); [lia|].
    cbv zeta in Hopt, Hact.
    assert (a = b) as -> by congruence.
    assert (d = 0) as -> by congruence.
    apply (filled_nonneg _ _ _ _ Hf) in Hl, Hu.
    rewrite decide_True in Hopt, Hact by done.
    assert (min3 (l + 3) (u + 2) (0 + 0) = 0) as Hmin
      by (unfold min3; lia).
    rewrite Hmin in Hopt, Hact.
    rewrite !decide_False in Hact by lia.
    rewrite decide_True in Hact by done. done.
Qed.

Lemma prescription_loop_diagonal A mat am fuel k prescr :
  filled A A (length A) 0 mat am → (k ≤ length A)%nat → (k ≤ fuel)%nat →
  prescription_loop fuel am (Z.of_nat k) (Z.of_nat k) prescr =
    Ok (prescr ++ replicate k MATCH).
Proof.
  intros Hf. revert fuel prescr.
  induction k as [|k IH]; intros fuel prescr Hk Hfuel.
  - rewrite prescription_loop_unfold, decide_True by done.
    by rewrite app_nil_r.
  - destruct fuel as [|fuel]; [lia|].
    destruct (filled_diagonal A mat am Hf (S k) Hk) as [_ Hact].
    rewrite (prescription_loop_step _ _ _ _ _ MATCH),
      decide_False, decide_False, decide_True
      by (done || lia || (by right) || (apply py_index2_cell, Hact; lia)).
    replace (Z.of_nat (S k) - 1) with (Z.of_nat k) by lia.
    rewrite IH by lia. by rewrite <- app_assoc.
Qed.

Lemma get_prescription_diagonal A mat am :
  filled A A (length A) 0 mat am →
  get_prescription am = Ok (replicate (length A) MATCH).
Proof.
  intros Hf. destruct (filled_shape_am _ _ _ _ _ _ Hf) as [Hrows Hcols].
  destruct (lookup_lt_is_Some_2 am 0) as [row0 Hrow0]; [lia|].
  pose proof (Hcols _ _ Hrow0) as Hlen0.
  unfold get_prescription. cbv zeta.
  pose proof (py_index_nat _ 0%nat _ Hrow0) as Hidx.
  change (Z.of_nat 0) with 0 in Hidx. rewrite Hidx, bind_Ok.
  replace (Z.of_nat (length am) - 1) with (Z.of_nat (length A)) by lia.
  replace (Z.of_nat (length row0) - 1) with (Z.of_nat (length A)) by lia.
  rewrite (prescription_loop_diagonal A mat am)
    by (done || unfold prescription_fuel; lia).
  rewrite bind_Ok, app_nil_l. by rewrite reverse_replicate.
Qed.

End diagonal_facts.

Lemma total_cost_replicate_MATCH n : total_cost (replicate n MATCH) = 0.
Proof.
  induction n as [|n IH]; [done|].
  simpl replicate. rewrite total_cost_cons, IH. ops_arith.
Qed.

(** * The claims *)

Section claims.
Context {E : Type} `{EqDecision E}.
Implicit Types (A B : list E) (h : gmap loc (list E)).

(** C3: replaying the prescription of [get_prescription (get_matrix A B)]
    with the per-step semantics of [get_redaction] never raises and leaves
    the working sequence equal to [B]: the list at the yielded location is
    [B] when the generator is exhausted, and the last step shows [B]. *)
Theorem C3_replay_yields_final A B h0 :
  ∃ am p ys hf,
    get_matrix A B = Ok am ∧ get_prescription am = Ok p ∧
    get_redaction p A B h0 = (ys, Ok hf) ∧ length ys = length p ∧
    hf !!! (alloc h0 A).1 = B ∧
    ∀ y, last ys = Some y → snapshot_at_yield y = B.
Proof.
  destruct (pipeline_spec A B) as (mat & am & p & _ & Hm & Hp & _ & Hal).
  destruct (get_redaction_spec A B p h0 Hal) as (ys & hf & Hrun & Hlen & Hhf & Hys).
  exists am, p, ys, hf. repeat split; try done.
  intros y Hy. rewrite last_lookup in Hy.
  destruct (Hys _ _ Hy) as (_ & _ & _ & _ & Hsnap).
  pose proof (lookup_lt_Some _ _ _ Hy) as Hk.
  assert (take (S (pred (length ys))) p = p) as Hall by (apply take_ge; lia).
  destruct (alignment_counts _ _ _ _ _ Hal) as [Hc Hj].
  rewrite Hsnap, Hall, Hc, Hj.
  by rewrite take_ge, drop_ge, app_nil_r by lia.
Qed.

(** C9: the prescription has at most [len(A) + len(B)] operations and at
    least [max(len(A), len(B))]. *)
Theorem C9_prescription_length A B :
  ∃ am p,
    get_matrix A B = Ok am ∧ get_prescription am = Ok p ∧
    (length p ≤ length A + length B)%nat ∧
    (length A `max` length B ≤ length p)%nat.
Proof.
  destruct (pipeline_spec A B) as (mat & am & p & _ & Hm & Hp & _ & Hal).
  exists am, p. apply alignment_length in Hal. repeat split; (done || lia).
Qed.

(** C10: during the replay of the prescription, after each step the cursor
    is the number of operations other than Delete processed so far, and
    the working sequence is the first [i] elements of [B] followed by
    what is left of [A] after the elements that the operations other than
    Insert have consumed. *)
Theorem C10_replay_invariant A B h0 :
  ∃ am p ys hf,
    get_matrix A B = Ok am ∧ get_prescription am = Ok p ∧
    get_redaction p A B h0 = (ys, Ok hf) ∧ length ys = length p ∧
    ∀ k y, ys !! k = Some y →
      let processed := take (S k) p in
      p !! k = Some (ts_action y.1) ∧
      ts_i y.1 = cursor_of processed ∧
      snapshot_at_yield y =
        take (ts_i y.1) B ++ drop (consumed_of processed) A.
Proof.
  destruct (pipeline_spec A B) as (mat & am & p & _ & Hm & Hp & _ & Hal).
  destruct (get_redaction_spec A B p h0 Hal) as (ys & hf & Hrun & Hlen & Hhf & Hys).
  exists am, p, ys, hf. repeat split; try done.
  all: destruct (Hys _ _ H) as (Ha & Hi & _ & _ & Hsnap); try done.
  by rewrite Hi.
Qed.

(** C5: with an empty original the prescription is [len(B)] Inserts, with
    an empty final it is [len(A)] Deletes, and with both empty it is
    empty. *)
Theorem C5_empty_inputs :
  (∀ B, get_matrix [] B ≫= get_prescription
        = Ok (replicate (length B) INSERT)) ∧
  (∀ A, get_matrix A [] ≫= get_prescription
        = Ok (replicate (length A) DELETE)) ∧
  get_matrix (@nil E) [] ≫= get_prescription = Ok [].
Proof.
  assert (∀ A B, ∃ p, get_matrix A B ≫= get_prescription = Ok p ∧
                      alignment A B 0 0 p) as Hrun.
  { intros A B.
    destruct (pipeline_spec A B) as (mat & am & p & _ & Hm & Hp & _ & Hal).
    exists p. by rewrite Hm, bind_Ok. }
  split; [|split].
  - intros B. destruct (Hrun [] B) as (p & -> & Hal).
    apply alignment_nil_l in Hal. by rewrite Hal, Nat.sub_0_r.
  - intros A. destruct (Hrun A []) as (p & -> & Hal).
    apply alignment_nil_r in Hal. by rewrite Hal, Nat.sub_0_r.
  - destruct (Hrun [] []) as (p & -> & Hal).
    apply alignment_nil_l in Hal. by rewrite Hal.
Qed.

(** C4: for equal inputs the prescription is [len(A)] Matches, and its
    replay ends with every step a Match at running total 0. *)
Theorem C4_identical_inputs A h0 :
  ∃ am ys hf,
    get_matrix A A = Ok am ∧
    get_prescription am = Ok (replicate (length A) MATCH) ∧
    get_redaction (replicate (length A) MATCH) A A h0 = (ys, Ok hf) ∧
    length ys = length A ∧
    (∀ y, y ∈ ys → ts_action y.1 = MATCH ∧ ts_total y.1 = 0) ∧
    total_cost (replicate (length A) MATCH) = 0.
Proof.
  destruct (pipeline_spec A A) as (mat & am & p & _ & Hm & Hp & Hf & Hal).
  rewrite (get_prescription_diagonal A mat am Hf) in Hp. injection Hp as <-.
  destruct (get_redaction_spec A A _ h0 Hal) as (ys & hf & Hrun & Hlen & _ & Hys).
  exists am, ys, hf. rewrite length_replicate in Hlen.
  split; [done|]. split; [by apply (get_prescription_diagonal A mat)|].
  split; [done|]. split; [done|]. split; [|apply total_cost_replicate_MATCH].
  intros y [k Hk]%list_elem_of_lookup_1.
  destruct (Hys _ _ Hk) as (Ha & _ & Ht & _).
  apply lookup_replicate in Ha as [<- _]. split; [done|].
  by rewrite Ht, take_replicate, total_cost_replicate_MATCH.
Qed.

(** C6: in every interior cell the action follows the precedence Insert,
    then Delete, then Replace or Match: it is Insert whenever the insert
    candidate is the minimum, Delete whenever the delete candidate is and
    the insert candidate is not, and Replace or Match (Match on equal
    elements) only when neither is, the diagonal candidate then being the
    minimum. *)
Theorem C6_tie_break_precedence A B :
  ∃ mat am,
    get_matrix_tables A B = Ok (mat, am) ∧ get_matrix A B = Ok am ∧
    ∀ i j a b, A !! i = Some a → B !! j = Some b →
      ∃ left up diag,
        cell mat (S i) j = Some left ∧ cell mat i (S j) = Some up ∧
        cell mat i j = Some diag ∧
        let insert := left + 3 in
        let delete := up + 2 in
        let replace := diag + (if decide (a = b) then 0 else 4) in
        let optimal := min3 insert delete replace in
        cell mat (S i) (S j) = Some optimal ∧
        (optimal = insert → cell am (S i) (S j) = Some INSERT) ∧
        (optimal ≠ insert → optimal = delete →
           cell am (S i) (S j) = Some DELETE) ∧
        (optimal ≠ insert → optimal ≠ delete →
           optimal = replace ∧
           cell am (S i) (S j) = Some (if decide (a = b) then MATCH else REPLACE)).
Proof.
  destruct (get_matrix_spec A B) as (mat & am & Ht & Hm & Hf).
  exists mat, am. split; [done|]. split; [done|].
  intros i j a b Ha Hb.
  pose proof (lookup_lt_Some _ _ _ Ha). pose proof (lookup_lt_Some _ _ _ Hb).
  destruct (filled_interior _ _ _ _ _ _ Hf i j)
    as (a' & b' & l & u & d & Ha' & Hb' & Hl & Hu & Hd & Hopt & Hact); [lia|].
  assert (a' = a) as -> by congruence. assert (b' = b) as -> by congruence.
  exists l, u, d. cbv zeta in *. rewrite Hact.
  repeat split; try done; intros; repeat case_decide; try done.
  all: unfold min3 in *; lia.
Qed.

(** C7: on the action matrix of [get_matrix], [get_prescription] returns a
    prescription: it neither raises nor runs out of iterations.  On any
    matrix at all it terminates, and its [RuntimeError] carries a tag that
    some cell of the matrix holds and that is none of the four. *)
Theorem C7_traceback_total A B :
  (∃ am p, get_matrix A B = Ok am ∧ get_prescription am = Ok p) ∧
  (∀ am, get_prescription am ≠ OutOfFuel) ∧
  (∀ am msg a, get_prescription am = Raise (RuntimeError msg a) →
     (a ≠ DELETE ∧ a ≠ INSERT ∧ a ≠ REPLACE ∧ a ≠ MATCH) ∧
     ∃ row, row ∈ am ∧ a ∈ row).
Proof.
  split; [|split].
  - destruct (pipeline_spec A B) as (mat & am & p & _ & Hm & Hp & _).
    by exists am, p.
  - apply get_prescription_terminates.
  - apply get_prescription_unknown.
Qed.

(** C8, as the code has it: every step that [get_redaction] yields carries
    the location of the one list that the generator goes on mutating, not a
    copy.  A step that a consumer kept therefore shows, when read after a
    later step was yielded, the working sequence of that later step, and
    after the run the final working sequence. *)
Theorem C8_steps_share_one_list (prescription : list string) A B h0 :
  let run := get_redaction prescription A B h0 in
  (∀ y, y ∈ run.1 → ts_result y.1 = (alloc h0 A).1) ∧
  (∀ k1 k2 y1 y2, (k1 ≤ k2)%nat →
     run.1 !! k1 = Some y1 → run.1 !! k2 = Some y2 →
     snapshot_retained y2.2 y1 = snapshot_at_yield y2) ∧
  (∀ hf y, run.2 = Ok hf → y ∈ run.1 →
     snapshot_retained hf y = hf !!! (alloc h0 A).1).
Proof.
  cbv zeta.
  assert (∀ y, y ∈ (get_redaction prescription A B h0).1 →
               ts_result y.1 = (alloc h0 A).1) as Hloc.
  { unfold get_redaction, alloc. cbn [fst]. apply redaction_loop_result. }
  split; [done|]. split.
  - intros k1 k2 y1 y2 _ Hy1 Hy2. unfold snapshot_retained, snapshot_at_yield.
    rewrite (Hloc y1), (Hloc y2); [done|by eapply list_elem_of_lookup_2..].
  - intros hf y _ Hy. unfold snapshot_retained. by rewrite (Hloc y).
Qed.

End claims.

(** The borders as [get_matrix] writes them: the cost of a border cell is
    its index, whatever the costs of Insert and Delete. *)
Lemma get_matrix_borders {E} `{EqDecision E} (A B : list E) :
  ∃ mat am,
    get_matrix_tables A B = Ok (mat, am) ∧
    (∀ j, (j ≤ length B)%nat →
       cell mat 0 j = Some (Z.of_nat j) ∧ cell am 0 j = Some INSERT) ∧
    (∀ i, (1 ≤ i ≤ length A)%nat →
       cell mat i 0 = Some (Z.of_nat i) ∧ cell am i 0 = Some DELETE).
Proof.
  destruct (get_matrix_spec A B) as (mat & am & Ht & _ & Hf).
  exists mat, am. split; [done|]. split.
  - apply (filled_row0 _ _ _ _ _ _ Hf).
  - apply (filled_col0 _ _ _ _ _ _ Hf).
Qed.

(** * Concrete runs *)

Section scenarios.
Local Open Scope char_scope.

(** C1, at original ["a"] and final ["b"]: the prescription is Insert then
    Delete and its replay costs 5 (the cell [matrix[1][1]] holds 3), while
    the single Replace is an alignment of the same inputs that costs 4,
    which is also what the specification's recurrence gives. *)
Theorem C1_prescription_cost_a_b :
  let A := ["a"] in
  let B := ["b"] in
  get_matrix A B ≫= get_prescription = Ok [INSERT; DELETE] ∧
  (ts_total ∘ fst) <$> (get_redaction [INSERT; DELETE] A B ∅).1 = [3; 5] ∧
  total_cost [INSERT; DELETE] = 5 ∧
  (get_matrix_tables A B ≫= λ s, getitem2 s.1 1 1) = Ok 3 ∧
  alignment A B 0 0 [REPLACE] ∧ total_cost [REPLACE] = 4 ∧
  spec_matrix A B 1 1 = 4.
Proof.
  cbv zeta. repeat split; try by vm_compute.
  apply alignment_replace; [simpl; lia..|]. apply alignment_end.
Qed.

(** C2, at original [""] and final ["a"]: the border cell [matrix[0][1]]
    holds 1, not [1 * insert_cost = 3]; at original ["a"] and final [""]
    the border cell [matrix[1][0]] holds 1, not [1 * delete_cost = 2]. *)
Theorem C2_border_cost_is_index :
  (get_matrix_tables [] ["a"] ≫= λ s, getitem2 s.1 0 1) = Ok 1 ∧
  cost_of INSERT = Ok 3 ∧
  (get_matrix_tables ["a"] [] ≫= λ s, getitem2 s.1 1 0) = Ok 1 ∧
  cost_of DELETE = Ok 2.
Proof. repeat split; by vm_compute. Qed.

(** C8 fails as stated: in the replay of the prescription for ["a"] and
    ["b"], the first step shows ["b"; "a"] when it is yielded, and the same
    step, kept by the consumer and read when the second step is yielded,
    shows ["b"]. *)
Lemma C8_retained_step_shows_later_state :
  let ys := (get_redaction [INSERT; DELETE] ["a"] ["b"] ∅).1 in
  get_matrix ["a"] ["b"] ≫= get_prescription = Ok [INSERT; DELETE] ∧
  ∃ y1 y2,
    ys !! 0%nat = Some y1 ∧ ys !! 1%nat = Some y2 ∧
    snapshot_at_yield y1 = ["b"; "a"] ∧
    snapshot_retained y2.2 y1 = ["b"] ∧
    snapshot_retained y2.2 y1 ≠ snapshot_at_yield y1.
Proof.
  cbv zeta. split; [by vm_compute|].
  destruct (get_redaction [INSERT; DELETE] ["a"] ["b"] ∅) as [ys r] eqn:Hrun.
  vm_compute in Hrun. injection Hrun as <- <-.
  eexists _, _. repeat split; try by vm_compute.
Qed.

(** The scenario of the specification: ["cat"] into ["cats"]. *)
Example cat_cats :
  let A := ["c"; "a"; "t"] in
  let B := ["c"; "a"; "t"; "s"] in
  get_matrix A B ≫= get_prescription = Ok [MATCH; MATCH; MATCH; INSERT] ∧
  (ts_total ∘ fst) <$> (get_redaction [MATCH; MATCH; MATCH; INSERT] A B ∅).1
    = [0; 0; 0; 3] ∧
  snapshot_at_yield <$> (get_redaction [MATCH; MATCH; MATCH; INSERT] A B ∅).1
    = [A; A; A; B].
Proof. cbv zeta. repeat split; by vm_compute. Qed.

(** ["kitten"] into ["sitting"]: eight operations, at a total of 12. *)
Example kitten_sitting :
  let A := ["k"; "i"; "t"; "t"; "e"; "n"] in
  let B := ["s"; "i"; "t"; "t"; "i"; "n"; "g"] in
  get_matrix A B ≫= get_prescription
    = Ok [INSERT; DELETE; MATCH; MATCH; MATCH; REPLACE; MATCH; INSERT] ∧
  total_cost [INSERT; DELETE; MATCH; MATCH; MATCH; REPLACE; MATCH; INSERT]
    = 12 ∧
  spec_matrix A B 6 7 = 11.
Proof. cbv zeta. repeat split; by vm_compute. Qed.

(** The claims at concrete inputs. *)

Lemma C3_replay_yields_final_witness :
  ∃ y, last (get_redaction [INSERT; DELETE] ["a"] ["b"] ∅).1 = Some y ∧
       snapshot_at_yield y = ["b"].
Proof.
  destruct (C3_replay_yields_final ["a"] ["b"] ∅)
    as (am & p & ys & hf & Hm & Hp & Hrun & _ & _ & Hlast).
  vm_compute in Hm. injection Hm as <-.
  vm_compute in Hp. injection Hp as <-.
  vm_compute in Hrun. injection Hrun as <- <-.
  eexists. split; [vm_compute; reflexivity|].
  apply Hlast. reflexivity.
Defined.

Lemma C4_identical_inputs_witness :
  ∃ y, y ∈ (get_redaction [MATCH; MATCH] ["a"; "a"] ["a"; "a"] ∅).1 ∧
       ts_action y.1 = MATCH ∧ ts_total y.1 = 0.
Proof.
  destruct (C4_identical_inputs ["a"; "a"] ∅)
    as (am & ys & hf & _ & _ & Hrun & _ & Hys & _).
  vm_compute in Hrun. injection Hrun as <- <-.
  eexists. split; [vm_compute; apply list_elem_of_here|].
  apply Hys. apply list_elem_of_here.
Defined.

Lemma C6_tie_break_precedence_witness :
  ∃ mat am, get_matrix_tables ["a"] ["b"] = Ok (mat, am) ∧
            cell mat 1 1 = Some 3 ∧ cell am 1 1 = Some DELETE.
Proof.
  destruct (C6_tie_break_precedence ["a"] ["b"])
    as (mat & am & Ht & _ & Hcells).
  destruct (Hcells 0%nat 0%nat "a" "b" eq_refl eq_refl)
    as (l & u & d & Hl & Hu & Hd & Hopt & _ & Hdel & _).
  exists mat, am. split; [done|].
  vm_compute in Ht. injection Ht as <- <-.
  vm_compute in Hl. injection Hl as <-.
  vm_compute in Hu. injection Hu as <-.
  vm_compute in Hd. injection Hd as <-.
  split; [exact Hopt|]. apply Hdel; by vm_compute.
Defined.

Lemma C7_traceback_total_witness :
  get_prescription [[INSERT; "X"%string]]
    = Raise (RuntimeError "Unknown action: %s" "X")%string ∧
  ∃ row, row ∈ [[INSERT; "X"%string]] ∧ "X"%string ∈ row.
Proof.
  assert (get_prescription [[INSERT; "X"%string]]
          = Raise (RuntimeError "Unknown action: %s" "X")%string) as Hrun
    by (by vm_compute).
  split; [exact Hrun|].
  destruct (C7_traceback_total (E:=ascii) [] []) as (_ & _ & Hraise).
  exact (proj2 (Hraise _ _ _ Hrun)).
Defined.

Lemma C8_steps_share_one_list_witness :
  ∃ y1 y2,
    (get_redaction [INSERT; DELETE] ["a"] ["b"] ∅).1 !! 0%nat = Some y1 ∧
    (get_redaction [INSERT; DELETE] ["a"] ["b"] ∅).1 !! 1%nat = Some y2 ∧
    snapshot_retained y2.2 y1 = snapshot_at_yield y2.
Proof.
  destruct (C8_steps_share_one_list [INSERT; DELETE] ["a"] ["b"] ∅)
    as (_ & Hlater & _).
  eexists _, _.
  split; [vm_compute; reflexivity|]. split; [vm_compute; reflexivity|].
  apply (Hlater 0%nat 1%nat); [lia|reflexivity..].
Defined.

Lemma C10_replay_invariant_witness :
  ∃ y, (get_redaction [INSERT; DELETE] ["a"] ["b"] ∅).1 !! 1%nat = Some y ∧
       ts_i y.1 = cursor_of [INSERT; DELETE] ∧
       snapshot_at_yield y =
         take (ts_i y.1) ["b"] ++ drop (consumed_of [INSERT; DELETE]) ["a"].
Proof.
  destruct (C10_replay_invariant ["a"] ["b"] ∅)
    as (am & p & ys & hf & Hm & Hp & Hrun & _ & Hinv).
  vm_compute in Hm. injection Hm as <-.
  vm_compute in Hp. injection Hp as <-.
  vm_compute in Hrun. injection Hrun as <- <-.
  eexists. split; [vm_compute; reflexivity|].
  destruct (Hinv 1%nat _ eq_refl) as (_ & Hi & Hsnap).
  split; [exact Hi|exact Hsnap].
Defined.

End scenarios.


(** * Further properties of the code *)

(** ** The action matrix *)

Section more_matrix_facts.
Context {E : Type} `{EqDecision E}.
Implicit Types (A B : list E) (mat : list (list Z)) (am : list (list string)).

Lemma filled_known A B mat am i j a :
  filled A B (length A) 0 mat am → cell am i j = Some a → known_tag a.
Proof.
  intros Hf Ha. unfold known_tag.
  destruct (cell_lt _ _ _ _ _ _ (filled_shape_am _ _ _ _ _ _ Hf) Ha) as [Hi Hj].
  destruct i as [|i]; [|destruct j as [|j]].
  - destruct (filled_row0 _ _ _ _ _ _ Hf j) as [_ Hc]; [lia|].
    rewrite Hc in Ha. injection Ha as <-. tauto.
  - destruct (filled_col0 _ _ _ _ _ _ Hf (S i)) as [_ Hc]; [lia|].
    rewrite Hc in Ha. injection Ha as <-. tauto.
  - destruct (interior_action A B mat am i j) as (_ & _ & Hact).
    { apply (filled_interior _ _ _ _ _ _ Hf). lia. }
    destruct Hact as [Hc|[Hc|[Hc|[Hc _]]]];
      rewrite Hc in Ha; injection Ha as <-; tauto.
Qed.

(** X1: [get_matrix] never raises; the matrix it returns has [len(A) + 1]
    rows of [len(B) + 1] cells, and every cell holds one of the four tags
    (none keeps the initial empty string). *)
Theorem get_matrix_shape_and_tags A B :
  ∃ am, get_matrix A B = Ok am ∧ length am = S (length A) ∧
        ∀ row, row ∈ am →
          length row = S (length B) ∧ ∀ a, a ∈ row → known_tag a.
Proof.
  destruct (get_matrix_spec A B) as (mat & am & _ & Hm & Hf).
  exists am. destruct (filled_shape_am _ _ _ _ _ _ Hf) as [Hr Hc].
  split; [done|]. split; [done|].
  intros row [i Hi]%list_elem_of_lookup_1. split; [by eapply Hc|].
  intros a [j Hj]%list_elem_of_lookup_1.
  apply (filled_known A B mat am i j); [done|].
  unfold cell. by rewrite Hi.
Qed.

(** X2: in the matrix of [get_matrix] the whole first row is Insert, the
    origin included, and the first column below the origin is Delete. *)
Theorem get_matrix_border_actions A B :
  ∃ am, get_matrix A B = Ok am ∧
        (∀ j, (j ≤ length B)%nat → cell am 0 j = Some INSERT) ∧
        (∀ i, (1 ≤ i ≤ length A)%nat → cell am i 0 = Some DELETE).
Proof.
  destruct (get_matrix_spec A B) as (mat & am & _ & Hm & Hf).
  exists am. split; [done|]. split.
  - intros j Hj. by apply (filled_row0 _ _ _ _ _ _ Hf).
  - intros i Hi. by apply (filled_col0 _ _ _ _ _ _ Hf).
Qed.

Lemma alignment_known A B i j p : alignment A B i j p → Forall known_tag p.
Proof.
  induction 1; constructor; unfold known_tag; tauto.
Qed.

(** X3: the prescription of [get_prescription (get_matrix A B)] is an edit
    script for the inputs: it holds the four tags only, its operations
    other than Insert are [len(A)] in number and those other than Delete
    [len(B)], and it walks the grid from the origin to the last cell with
    Match on equal elements only. *)
Theorem prescription_is_edit_script A B :
  ∃ am p, get_matrix A B = Ok am ∧ get_prescription am = Ok p ∧
          Forall known_tag p ∧
          consumed_of p = length A ∧ cursor_of p = length B ∧
          alignment A B 0 0 p.
Proof.
  destruct (pipeline_spec A B) as (mat & am & p & _ & Hm & Hp & _ & Hal).
  exists am, p. destruct (alignment_counts _ _ _ _ _ Hal) as [Hc Hj].
  repeat split; try done. by eapply alignment_known.
Qed.

End more_matrix_facts.

(** ** The traceback on matrices that [get_matrix] did not build *)

Lemma prescription_loop_tags am fuel i j prescr p
    (P := λ a, known_tag a ∧ ∃ row, row ∈ am ∧ a ∈ row) :
  prescription_loop fuel am i j prescr = Ok p →
  Forall P prescr → Forall P p.
Proof.
  revert i j prescr. induction fuel as [|fuel IH]; intros i j prescr;
    rewrite prescription_loop_unfold; case_decide; try done;
    try (by intros [= <-]).
  destruct (read_cases am i j) as [(row & a & -> & Hrow & Ha & _)| ->];
    [|done].
  rewrite bind_Ok. unfold P, known_tag.
  repeat case_decide; try done; intros Hrun Hacc;
    apply (IH _ _ _ Hrun); apply Forall_app; (split; [done|]);
    apply Forall_singleton; (split; [unfold known_tag; tauto|by exists row]).
Qed.

(** X4: whatever the matrix, a prescription that [get_prescription]
    returns holds only tags among the four, each read from a cell of the
    matrix. *)
Theorem get_prescription_tags am p :
  get_prescription am = Ok p →
  Forall (λ a, known_tag a ∧ ∃ row, row ∈ am ∧ a ∈ row) p.
Proof.
  unfold get_prescription. cbv zeta.
  destruct (py_index am 0) as [row0| |]; try done. rewrite bind_Ok.
  destruct (prescription_loop _ _ _ _ _) as [q| |] eqn:Hloop; try done.
  rewrite bind_Ok. intros [= <-]. apply Forall_reverse.
  by apply (prescription_loop_tags _ _ _ _ _ _ Hloop).
Qed.

Lemma prescription_loop_bordered r c am fuel i j prescr :
  well_bordered r c am → (i < r)%nat → (j < c)%nat → (i + j ≤ fuel)%nat →
  ∃ p, prescription_loop fuel am (Z.of_nat i) (Z.of_nat j) prescr
         = Ok (prescr ++ p) ∧
       (i `max` j ≤ length p ≤ i + j)%nat.
Proof.
  intros (Hs & _ & _ & Hrow & Hcol & Hin). revert i j prescr.
  induction fuel as [|fuel IH]; intros i j prescr Hi Hj Hfuel.
  { assert (i = 0 ∧ j = 0)%nat as [-> ->] by lia.
    exists []. by rewrite app_nil_r. }
  destruct (decide (i = 0 ∧ j = 0)%nat) as [[-> ->]|Hij].
  { exists []. rewrite app_nil_r. simpl. split; [done|lia]. }
  assert (∀ a i' j', (i' + j' ≤ fuel)%nat → (i' < r)%nat → (j' < c)%nat →
            (S (i' `max` j') ≥ i `max` j)%nat → (S (i' + j') ≤ i + j)%nat →
            ∃ p, prescription_loop fuel am (Z.of_nat i') (Z.of_nat j')
                   (prescr ++ [a]) = Ok (prescr ++ p) ∧
                 (i `max` j ≤ length p ≤ i + j)%nat) as Hnext.
  { intros a i' j' Hf' Hi' Hj' Hmax Hsum.
    destruct (IH i' j' (prescr ++ [a])) as (p & -> & Hlen); [lia..|].
    exists (a :: p). rewrite <- app_assoc. split; [done|]. simpl. lia. }
  destruct (cell_is_Some _ _ am i j Hs Hi Hj) as [a Ha].
  assert (a = INSERT ∧ i = 0%nat ∨ a = DELETE ∧ j = 0%nat ∨
          known_tag a ∧ (1 ≤ i)%nat ∧ (1 ≤ j)%nat) as Hcases.
  { destruct i as [|i]; [left|destruct j as [|j]; [right; left|right; right]].
    - rewrite Hrow in Ha by lia. by injection Ha as <-.
    - rewrite Hcol in Ha by lia. by injection Ha as <-.
    - split; [|lia]. eapply Hin; [| |done]; lia. }
  rewrite (prescription_loop_step _ _ _ _ _ a)
    by (lia || by apply py_index2_cell).
  destruct Hcases as [[-> ->]|[[-> ->]|([->|[->|[->| ->]]] & Hi1 & Hj1)]].
  - rewrite decide_False, decide_True by done.
    replace (Z.of_nat j - 1) with (Z.of_nat (j - 1)) by lia.
    apply Hnext; lia.
  - rewrite decide_True by done.
    replace (Z.of_nat i - 1) with (Z.of_nat (i - 1)) by lia.
    apply Hnext; lia.
  - rewrite decide_False, decide_False, decide_True by (done || by left).
    replace (Z.of_nat i - 1) with (Z.of_nat (i - 1)) by lia.
    replace (Z.of_nat j - 1) with (Z.of_nat (j - 1)) by lia.
    apply Hnext; lia.
  - rewrite decide_False, decide_True by done.
    replace (Z.of_nat j - 1) with (Z.of_nat (j - 1)) by lia.
    apply Hnext; lia.
  - rewrite decide_True by done.
    replace (Z.of_nat i - 1) with (Z.of_nat (i - 1)) by lia.
    apply Hnext; lia.
  - rewrite decide_False, decide_False, decide_True by (done || by right).
    replace (Z.of_nat i - 1) with (Z.of_nat (i - 1)) by lia.
    replace (Z.of_nat j - 1) with (Z.of_nat (j - 1)) by lia.
    apply Hnext; lia.
Qed.

(** X5: on any matrix of [r] rows and [c] columns whose first row is
    Insert and first column Delete beyond the origin, and whose other
    cells hold tags among the four, [get_prescription] returns a
    prescription of at least [max(r - 1, c - 1)] and at most
    [(r - 1) + (c - 1)] operations. *)
Theorem get_prescription_well_bordered r c am :
  well_bordered r c am →
  ∃ p, get_prescription am = Ok p ∧
       ((r - 1) `max` (c - 1) ≤ length p ≤ (r - 1) + (c - 1))%nat.
Proof.
  intros Hwb. pose proof Hwb as ([Hr Hc] & Hr1 & Hc1 & _).
  destruct (lookup_lt_is_Some_2 am 0) as [row0 Hrow0]; [lia|].
  pose proof (Hc _ _ Hrow0) as Hlen0.
  pose proof (length_row_concat _ _ _ Hrow0).
  destruct (prescription_loop_bordered r c am (prescription_fuel am)
              (r - 1) (c - 1) [] Hwb) as (p & Hrun & Hlen);
    [lia|lia|unfold prescription_fuel; lia|].
  exists (reverse p). rewrite length_reverse. split; [|done].
  unfold get_prescription. cbv zeta.
  pose proof (py_index_nat _ 0%nat _ Hrow0) as Hidx.
  change (Z.of_nat 0) with 0 in Hidx. rewrite Hidx, bind_Ok.
  replace (Z.of_nat (length am) - 1) with (Z.of_nat (r - 1)) by lia.
  replace (Z.of_nat (length row0) - 1) with (Z.of_nat (c - 1)) by lia.
  by rewrite Hrun.
Qed.

(** ** The replay of an arbitrary prescription *)

Lemma count_of_cons tag a ops :
  count_of tag (a :: ops) = (count_of tag [a] + count_of tag ops)%nat.
Proof.
  unfold count_of. change (a :: ops) with ([a] ++ ops).
  by rewrite filter_app, length_app.
Qed.

Lemma count_of_single tag a :
  count_of tag [a] = if decide (a = tag) then 1%nat else 0%nat.
Proof.
  unfold count_of. rewrite filter_cons, filter_nil. by case_decide.
Qed.

Section more_replay_facts.
Context {E : Type}.
Implicit Types (A B final : list E) (h : gmap loc (list E)).

Lemma work_step_Ok final a i (l : list E) i' l' :
  work_step final a i l = Ok (i', l') →
  known_tag a ∧ applicable a i (length l) (length final) ∧
  i' = (i + cursor_of [a])%nat ∧ cost_of a = Ok (total_cost [a]) ∧
  (length l' + count_of DELETE [a] = length l + count_of INSERT [a])%nat ∧
  (a = MATCH → l' = l).
Proof.
  unfold work_step, known_tag, applicable. rewrite !count_of_single.
  destruct (decide (a = DELETE)) as [->|Hd].
  { unfold pop. destruct (decide (i < length l)%nat) as [Hi|]; [|done].
    intros [= <- <-]. rewrite length_delete by (by apply lookup_lt_is_Some_2).
    rewrite decide_False by done.
    repeat split; try tauto; try done; ops_arith. }
  destruct (decide (a = INSERT)) as [->|Hi].
  { unfold getitem. destruct (final !! i) as [x|] eqn:Hx; [|done].
    intros [= <- <-]. apply lookup_lt_Some in Hx. unfold list_insert_at.
    rewrite length_app, length_take. cbn [length]. rewrite length_drop.
    repeat split; try tauto; try done; ops_arith. }
  destruct (decide (a = MATCH)) as [->|Hm].
  { intros [= <- <-]. repeat split; try tauto; try done; ops_arith. }
  destruct (decide (a = REPLACE)) as [->|Hr]; [|done].
  unfold getitem, setitem. destruct (final !! i) as [x|] eqn:Hx; [|done].
  rewrite bind_Ok. destruct (decide (i < length l)%nat) as [Hi'|]; [|done].
  intros [= <- <-]. apply lookup_lt_Some in Hx. rewrite length_insert.
  repeat split; try tauto; try done; ops_arith.
Qed.

Lemma work_step_applicable final a i (l : list E) :
  known_tag a → applicable a i (length l) (length final) →
  ∃ i' l', work_step final a i l = Ok (i', l').
Proof.
  unfold work_step, known_tag, applicable. intros Hk Ha.
  destruct (decide (a = DELETE)) as [->|Hd].
  { unfold pop. rewrite decide_True; [eauto|].
    by destruct Ha as [?|[[? ?]|[[? ?]|[? [? ?]]]]]. }
  destruct (decide (a = INSERT)) as [->|Hi].
  { destruct (lookup_lt_is_Some_2 final i) as [x Hx].
    { by destruct Ha as [?|[[? ?]|[[? ?]|[? [? ?]]]]]. }
    rewrite (getitem_Some _ _ _ Hx). eauto. }
  destruct (decide (a = MATCH)) as [->|Hm]; [eauto|].
  destruct (decide (a = REPLACE)) as [->|Hr]; [|exfalso; tauto].
  destruct (lookup_lt_is_Some_2 final i) as [x Hx].
  { by destruct Ha as [?|[[? ?]|[[? ?]|[? [? ?]]]]]. }
  rewrite (getitem_Some _ _ _ Hx), bind_Ok. unfold setitem.
  rewrite decide_True; [eauto|].
  by destruct Ha as [?|[[? ?]|[[? ?]|[? [? ?]]]]].
Qed.

Lemma work_step_not_applicable final a i (l : list E) :
  known_tag a → ¬ applicable a i (length l) (length final) →
  work_step final a i l = Raise IndexError.
Proof.
  unfold work_step, known_tag, applicable. intros Hk Ha.
  destruct (decide (a = DELETE)) as [->|Hd].
  { unfold pop. rewrite decide_False by tauto. done. }
  destruct (decide (a = INSERT)) as [->|Hi].
  { unfold getitem. destruct (final !! i) as [x|] eqn:Hx; [|done].
    apply lookup_lt_Some in Hx. exfalso. tauto. }
  destruct (decide (a = MATCH)) as [->|Hm]; [exfalso; tauto|].
  destruct (decide (a = REPLACE)) as [->|Hr]; [|exfalso; tauto].
  unfold getitem, setitem. destruct (final !! i) as [x|] eqn:Hx; [|done].
  apply lookup_lt_Some in Hx. rewrite bind_Ok.
  destruct (decide (i < length l)%nat); [exfalso; tauto|done].
Qed.

Lemma work_step_unknown final a i (l : list E) :
  ¬ known_tag a →
  work_step final a i l = Raise (RuntimeError "Unknown action: %s" a).
Proof.
  unfold work_step, known_tag. intros Hk.
  rewrite !decide_False by tauto. done.
Qed.

(** The generator's step is the step on lists, applied to the list at the
    location [r]. *)
Lemma redaction_step_work final r a total i h :
  redaction_step final r a total i h =
    '(i', l') ← work_step final a i (h !!! r);
    c ← cost_of a;
    Ok (total + c, i', if decide (a = MATCH) then h else <[r := l']> h).
Proof.
  unfold redaction_step, work_step.
  destruct (decide (a = DELETE)) as [->|Hd].
  { unfold pop. by destruct (decide (i < length (h !!! r))%nat). }
  destruct (decide (a = INSERT)) as [->|Hi].
  { by destruct (getitem final i). }
  destruct (decide (a = MATCH)) as [->|Hm]; [done|].
  destruct (decide (a = REPLACE)) as [->|Hr]; [|done].
  destruct (getitem final i) as [x| |]; [|done..]. rewrite !bind_Ok.
  by destruct (setitem (h !!! r) i x).
Qed.

Lemma redaction_step_Ok final r a total i h total' i' h' :
  redaction_step final r a total i h = Ok (total', i', h') →
  known_tag a ∧ applicable a i (length (h !!! r)) (length final) ∧
  total' = total + total_cost [a] ∧ i' = (i + cursor_of [a])%nat ∧
  (length (h' !!! r) + count_of DELETE [a]
   = length (h !!! r) + count_of INSERT [a])%nat.
Proof.
  rewrite redaction_step_work.
  destruct (work_step final a i (h !!! r)) as [[i1 l1]| |] eqn:Hw; [|done..].
  destruct (work_step_Ok _ _ _ _ _ _ Hw) as (Hk & Ha & -> & -> & Hlen & Hm).
  rewrite !bind_Ok. intros [= <- <- <-].
  split; [done|]. split; [done|]. split; [done|]. split; [done|].
  destruct (decide (a = MATCH)) as [Hmatch|_].
  - by rewrite (Hm Hmatch) in Hlen.
  - by rewrite lookup_total_insert_eq.
Qed.

(** The replay of [p1 ++ p2] is the replay of [p1] followed, when that did
    not raise, by the replay of [p2] from where [p1] left off. *)
Lemma redaction_loop_app final r p1 p2 total i h :
  redaction_loop (p1 ++ p2) final r total i h =
    match redaction_loop p1 final r total i h with
    | (ys1, Ok h1) =>
      let '(ys2, r2) :=
        redaction_loop p2 final r (total + total_cost p1)
          (i + cursor_of p1)%nat h1 in
      (ys1 ++ ys2, r2)
    | (ys1, r1) => (ys1, r1)
    end.
Proof.
  revert total i h. induction p1 as [|a p1 IH]; intros total i h.
  - cbn [app redaction_loop]. change (total_cost []) with 0.
    change (cursor_of []) with 0%nat. rewrite Z.add_0_r, Nat.add_0_r.
    by destruct (redaction_loop p2 final r total i h).
  - cbn [app redaction_loop].
    destruct (redaction_step final r a total i h) as [[[t' i'] h']| |] eqn:Hs;
      [|done..].
    destruct (redaction_step_Ok _ _ _ _ _ _ _ _ _ Hs) as (_ & _ & -> & -> & _).
    rewrite IH.
    destruct (redaction_loop p1 final r _ _ h') as [ys1 [h1| |]]; [|done..].
    rewrite (total_cost_cons a p1), (cursor_of_cons a p1).
    rewrite Z.add_assoc, Nat.add_assoc.
    by destruct (redaction_loop p2 final r _ _ h1).
Qed.

(** The store when the replay is exhausted. *)
Lemma redaction_loop_final final r p total i h ys hf :
  redaction_loop p final r total i h = (ys, Ok hf) →
  length ys = length p ∧ Forall known_tag p ∧
  (length (hf !!! r) + count_of DELETE p
   = length (h !!! r) + count_of INSERT p)%nat.
Proof.
  revert total i h ys. induction p as [|a p IH]; intros total i h ys.
  - cbn [redaction_loop]. intros [= <- <-].
    split; [done|]. split; [constructor|]. unfold count_of. simpl. lia.
  - cbn [redaction_loop].
    destruct (redaction_step final r a total i h) as [[[t' i'] h']| |] eqn:Hs;
      [|done..].
    destruct (redaction_step_Ok _ _ _ _ _ _ _ _ _ Hs)
      as (Hk & _ & _ & _ & Hlen).
    destruct (redaction_loop p final r t' i' h') as [ys' res] eqn:Hrun.
    intros [= <- ->]. destruct (IH _ _ _ _ Hrun) as (Hl & Hks & Hlen').
    split; [simpl; by rewrite Hl|]. split; [by constructor|].
    rewrite (count_of_cons DELETE a p), (count_of_cons INSERT a p). lia.
Qed.

Lemma redaction_loop_steps final r p total i h k y :
  (redaction_loop p final r total i h).1 !! k = Some y →
  let processed := take (S k) p in
  p !! k = Some (ts_action y.1) ∧ known_tag (ts_action y.1) ∧
  ts_i y.1 = (i + cursor_of processed)%nat ∧
  ts_total y.1 = total + total_cost processed ∧
  (length (snapshot_at_yield y) + count_of DELETE processed
   = length (h !!! r) + count_of INSERT processed)%nat.
Proof.
  cbv zeta. revert total i h k.
  induction p as [|a p IH]; intros total i h k; [done|].
  cbn [redaction_loop].
  destruct (redaction_step final r a total i h) as [[[t' i'] h']| |] eqn:Hs;
    [|done..].
  destruct (redaction_step_Ok _ _ _ _ _ _ _ _ _ Hs)
    as (Hk & _ & -> & -> & Hlen).
  specialize (IH (total + total_cost [a]) (i + cursor_of [a])%nat h').
  destruct (redaction_loop p final r _ _ h') as [ys res].
  destruct k as [|k]; cbn [fst lookup list_lookup].
  - intros [= <-]. cbn [take]. repeat split; done.
  - intros Hy. destruct (IH k Hy) as (Ha & Hka & Hi & Ht & Hl).
    rewrite (firstn_cons (S k) a p).
    rewrite (cursor_of_cons a (take (S k) p)).
    rewrite (total_cost_cons a (take (S k) p)).
    rewrite (count_of_cons DELETE a), (count_of_cons INSERT a).
    repeat split; try done; lia.
Qed.

End more_replay_facts.

Section replay_theorems.
Context {E : Type}.
Implicit Types (A B : list E) (h : gmap loc (list E)).

Lemma redaction_step_ends final r a total i h :
  redaction_step final r a total i h ≠ OutOfFuel.
Proof.
  rewrite redaction_step_work.
  destruct (work_step final a i (h !!! r)) as [[i' l']| |] eqn:Hw.
  - destruct (work_step_Ok _ _ _ _ _ _ Hw) as (_ & _ & _ & Hc & _).
    by rewrite !bind_Ok, Hc.
  - done.
  - exfalso. revert Hw. unfold work_step, pop, getitem, setitem.
    destruct (decide (a = DELETE)); [by case_decide|].
    destruct (decide (a = INSERT)); [by destruct (final !! i)|].
    destruct (decide (a = MATCH)); [done|].
    destruct (decide (a = REPLACE)); [|done].
    destruct (final !! i); [|done]. rewrite bind_Ok. by case_decide.
Qed.

Lemma redaction_loop_prefix (final : list E) r p total i h :
  let run := redaction_loop p final r total i h in
  run.2 ≠ OutOfFuel ∧ (length run.1 ≤ length p)%nat ∧
  (length run.1 = length p ↔ ∃ hf, run.2 = Ok hf).
Proof.
  cbv zeta. revert total i h. induction p as [|a p IH]; intros total i h.
  - cbn. split; [done|]. split; [lia|]. split; eauto.
  - cbn [redaction_loop].
    pose proof (redaction_step_ends final r a total i h) as Hends.
    destruct (redaction_step final r a total i h) as [[[t' i'] h']|e|];
      [|cbn|done].
    + specialize (IH t' i' h').
      destruct (redaction_loop p final r t' i' h') as [ys res].
      cbn in *. destruct IH as (Hne & Hle & Hiff).
      split; [done|]. split; [lia|]. rewrite <- Hiff. lia.
    + split; [done|]. split; [lia|]. split; [lia|]. by intros [hf ?].
Qed.

(** X6: whatever the prescription and the sequences, the [k]-th step that
    [get_redaction] yields carries the [k]-th operation, which is one of
    the four tags; its cursor is the number of operations other than Delete
    among the first [k + 1], its total is the sum of their costs, and the
    working sequence is as long as the original plus the Inserts minus
    the Deletes among them. *)
Theorem replay_step_facts (p : list string) A B h0 k y :
  (get_redaction p A B h0).1 !! k = Some y →
  let processed := take (S k) p in
  p !! k = Some (ts_action y.1) ∧ known_tag (ts_action y.1) ∧
  ts_i y.1 = cursor_of processed ∧
  ts_total y.1 = total_cost processed ∧
  (length (snapshot_at_yield y) + count_of DELETE processed
   = length A + count_of INSERT processed)%nat.
Proof.
  unfold get_redaction, alloc. intros Hy.
  destruct (redaction_loop_steps _ _ _ _ _ _ _ _ Hy)
    as (Ha & Hk & Hi & Ht & Hlen).
  rewrite lookup_total_insert_eq in Hlen. cbv zeta.
  rewrite Hi, Ht, Z.add_0_l, Nat.add_0_l. done.
Qed.

(** X7: [get_redaction] yields at most one step per operation; it yields
    all of them exactly when it ends without an exception. *)
Theorem replay_yields_prefix (p : list string) A B h0 :
  let run := get_redaction p A B h0 in
  run.2 ≠ OutOfFuel ∧ (length run.1 ≤ length p)%nat ∧
  (length run.1 = length p ↔ ∃ hf, run.2 = Ok hf).
Proof. unfold get_redaction, alloc. apply redaction_loop_prefix. Qed.

(** X8: a tag outside the four makes [get_redaction] raise
    [RuntimeError] when it is reached: the steps of the operations before
    it are yielded, and nothing after it is processed. *)
Theorem replay_unknown_tag (p1 p2 : list string) a A B h0 ys h1 :
  ¬ known_tag a →
  get_redaction p1 A B h0 = (ys, Ok h1) →
  get_redaction (p1 ++ a :: p2) A B h0
  = (ys, Raise (RuntimeError "Unknown action: %s" a)).
Proof.
  unfold get_redaction, alloc. intros Ha Hrun.
  rewrite redaction_loop_app, Hrun. cbn [redaction_loop].
  rewrite redaction_step_work, (work_step_unknown _ _ _ _ Ha).
  cbn [mbind res_bind]. by rewrite app_nil_r.
Qed.

(** X9: replaying [p1 ++ p2] is replaying [p1] and then, when that did
    not raise, [p2] on the same list from the cursor and the total that
    [p1] reached; when [p1] raises, [p2] is never looked at. *)
Theorem replay_app (p1 p2 : list string) A B h0 :
  get_redaction (p1 ++ p2) A B h0 =
    match get_redaction p1 A B h0 with
    | (ys1, Ok h1) =>
      let '(ys2, r2) :=
        redaction_loop p2 B (alloc h0 A).1
          (total_cost p1) (cursor_of p1) h1 in
      (ys1 ++ ys2, r2)
    | (ys1, r1) => (ys1, r1)
    end.
Proof. unfold get_redaction, alloc. by rewrite redaction_loop_app. Qed.

Lemma redaction_loop_matches (final : list E) r n total i h :
  ∃ ys, redaction_loop (replicate n MATCH) final r total i h = (ys, Ok h) ∧
        length ys = n ∧
        ∀ k y, ys !! k = Some y →
          ts_i y.1 = (i + S k)%nat ∧ ts_total y.1 = total ∧
          snapshot_at_yield y = h !!! r.
Proof.
  revert total i. induction n as [|n IH]; intros total i.
  - exists []. by cbn.
  - cbn [replicate redaction_loop]. rewrite redaction_step_MATCH.
    destruct (IH (total + 0) (S i)) as (ys & -> & Hlen & Hys).
    eexists. split; [done|]. split; [by rewrite <- Hlen|].
    intros [|k] y; cbn.
    + intros [= <-]. cbn. repeat split; lia.
    + intros Hy. destruct (Hys _ _ Hy) as (-> & -> & ->).
      repeat split; lia.
Qed.

(** X10: Match checks nothing: replaying [n] Matches yields [n] steps at
    total 0 and leaves the working sequence as the original, whatever the
    two sequences are and however long. *)
Theorem replay_of_matches n A B h0 :
  ∃ ys, get_redaction (replicate n MATCH) A B h0 = (ys, Ok (alloc h0 A).2) ∧
        length ys = n ∧
        ∀ k y, ys !! k = Some y →
          ts_i y.1 = S k ∧ ts_total y.1 = 0 ∧ snapshot_at_yield y = A.
Proof.
  unfold get_redaction, alloc. cbn [fst snd].
  destruct (redaction_loop_matches B (fresh (dom h0)) n 0 0%nat
              (<[fresh (dom h0):=A]> h0)) as (ys & Hrun & Hlen & Hys).
  exists ys. split; [done|]. split; [done|].
  intros k y Hy. destruct (Hys _ _ Hy) as (-> & -> & ->).
  by rewrite lookup_total_insert_eq.
Qed.

(** X11: after a prescription that replayed without an exception, one more
    operation among the four yields one more step exactly when it is
    applicable: a Match always, a Delete when the cursor is inside the
    working sequence, an Insert when it is inside the final sequence, a
    Replace when it is inside both; otherwise the replay raises
    [IndexError] after the same steps. *)
Theorem replay_next_operation (p : list string) a A B h0 ys h1 :
  known_tag a →
  get_redaction p A B h0 = (ys, Ok h1) →
  let len := (length A + count_of INSERT p - count_of DELETE p)%nat in
  (applicable a (cursor_of p) len (length B) ∧
   ∃ y hf, get_redaction (p ++ [a]) A B h0 = (ys ++ [y], Ok hf)) ∨
  (¬ applicable a (cursor_of p) len (length B) ∧
   get_redaction (p ++ [a]) A B h0 = (ys, Raise IndexError)).
Proof.
  unfold get_redaction, alloc. cbv zeta. intros Ha Hrun.
  destruct (redaction_loop_final _ _ _ _ _ _ _ _ Hrun) as (_ & _ & Hlen).
  rewrite lookup_total_insert_eq in Hlen.
  replace (length A + count_of INSERT p - count_of DELETE p)%nat
    with (length (h1 !!! fresh (dom h0))) by lia.
  rewrite redaction_loop_app, Hrun. cbn [redaction_loop].
  rewrite redaction_step_work. rewrite Z.add_0_l, Nat.add_0_l.
  set (r := fresh (dom h0)).
  destruct (work_step B a (cursor_of p) (h1 !!! r)) as [[i' l']|e|] eqn:Hw.
  - destruct (work_step_Ok _ _ _ _ _ _ Hw) as (_ & Happ & _ & Hc & _).
    left. split; [done|]. rewrite !bind_Ok, Hc, bind_Ok. eauto.
  - right.
    assert (¬ applicable a (cursor_of p) (length (h1 !!! r)) (length B))
      as Hnot.
    { intros Happ.
      destruct (work_step_applicable B a (cursor_of p) (h1 !!! r) Ha Happ)
        as (? & ? & Hok). congruence. }
    rewrite (work_step_not_applicable _ _ _ _ Ha Hnot) in Hw.
    injection Hw as <-. split; [done|].
    cbn [mbind res_bind]. by rewrite app_nil_r.
  - exfalso.
    pose proof (redaction_step_ends B r a (total_cost p) (cursor_of p) h1)
      as Hends.
    rewrite redaction_step_work, Hw in Hends. done.
Qed.

End replay_theorems.

(** ** The table of [show_table] *)












(** ** The further properties at concrete inputs *)

Section more_scenarios.

Lemma get_prescription_tags_witness :
  get_prescription [[MATCH; INSERT]; [DELETE; MATCH]] = Ok [MATCH] ∧
  Forall (λ a, known_tag a ∧
               ∃ row, row ∈ [[MATCH; INSERT]; [DELETE; MATCH]] ∧ a ∈ row)
         [MATCH].
Proof.
  assert (get_prescription [[MATCH; INSERT]; [DELETE; MATCH]] = Ok [MATCH])
    as Hrun by (by vm_compute).
  split; [exact Hrun|]. exact (get_prescription_tags _ [MATCH] Hrun).
Defined.

Lemma get_prescription_well_bordered_witness :
  well_bordered 2 2 [[MATCH; INSERT]; [DELETE; MATCH]] ∧
  ∃ p, get_prescription [[MATCH; INSERT]; [DELETE; MATCH]] = Ok p ∧
       ((2 - 1) `max` (2 - 1) ≤ length p ≤ (2 - 1) + (2 - 1))%nat.
Proof.
  assert (well_bordered 2 2 [[MATCH; INSERT]; [DELETE; MATCH]]) as Hwb.
  { split; [split; [reflexivity|]|].
    { intros [|[|i]] row Hrow; simplify_eq/=; reflexivity. }
    split; [lia|]. split; [lia|]. split; [|split].
    - intros j Hj. assert (j = 1%nat) as -> by lia. reflexivity.
    - intros i Hi. assert (i = 1%nat) as -> by lia. reflexivity.
    - intros [|[|i]] [|[|j]] a Hi Hj Ha; try lia; try done.
      injection Ha as <-. do 3 right. reflexivity. }
  split; [exact Hwb|].
  exact (get_prescription_well_bordered 2 2 _ Hwb).
Defined.

Lemma replay_step_facts_witness :
  ∃ y, (get_redaction [INSERT; DELETE] ["a"%char] ["b"%char] ∅).1 !! 1%nat
       = Some y ∧
       ts_i y.1 = cursor_of [INSERT; DELETE] ∧
       ts_total y.1 = total_cost [INSERT; DELETE].
Proof.
  pose proof (replay_step_facts [INSERT; DELETE] ["a"%char] ["b"%char] ∅ 1)
    as Hfacts.
  destruct ((get_redaction [INSERT; DELETE] ["a"%char] ["b"%char] ∅).1
              !! 1%nat) as [y|] eqn:Hy; [|by vm_compute in Hy].
  exists y. split; [reflexivity|].
  destruct (Hfacts y eq_refl) as (_ & _ & Hi & Ht & _).
  split; [exact Hi|exact Ht].
Defined.

Lemma replay_unknown_tag_witness :
  ∃ ys, get_redaction ([MATCH] ++ "X"%string :: [DELETE])
          ["a"%char] ["a"%char] ∅
        = (ys, Raise (RuntimeError "Unknown action: %s" "X")) ∧
        length ys = 1%nat.
Proof.
  eexists. split.
  - eapply (replay_unknown_tag [MATCH] [DELETE] "X"%string).
    + intros [H|[H|[H|H]]]; discriminate H.
    + vm_compute. reflexivity.
  - reflexivity.
Defined.

Lemma replay_next_operation_witness :
  let len := (length (@nil ascii) + count_of INSERT [] - count_of DELETE [])%nat in
  (applicable DELETE (cursor_of []) len (length (@nil ascii)) ∧
   ∃ y hf, get_redaction ([] ++ [DELETE]) (@nil ascii) [] ∅
           = ([] ++ [y], Ok hf)) ∨
  (¬ applicable DELETE (cursor_of []) len (length (@nil ascii)) ∧
   get_redaction ([] ++ [DELETE]) (@nil ascii) [] ∅ = ([], Raise IndexError)).
Proof.
  eapply (replay_next_operation [] DELETE (@nil ascii) [] ∅ []).
  - unfold known_tag. tauto.
  - vm_compute. reflexivity.
Defined.

End more_scenarios.
